(** * landscape.lib.amp: method calls over AMP

    A shallow embedding of [landscape/lib/amp.py]: the whitelist of exposed
    methods ([Method], [MethodCallProtocol.__init__]), the dispatcher
    ([MethodCallProtocol._call_object_method]), the remote proxy
    ([RemoteObject]) and [get_nested_attr].

    Python objects live in a store: dictionaries, lists and instances are
    reached through references, so that sharing and in-place updates are
    visible.  Code runs in a state-and-exception monad over that store and a
    log of the observable operations (attribute reads, calls, commands sent
    to the peer). *)

From Stdlib Require Import Ascii.
From stdpp Require Import gmap strings list fin_maps.

Set Warnings "-register-all,-level-tolerance".

Open Scope string_scope.

(** ** Values, types and the store *)

Definition loc := positive.

(** Immutable values are carried as they are; mutable objects are reached
    through a reference into the store.  [VFunc] stands for a function or
    bound method object, named by an identifier. *)
Inductive value :=
| VNone
| VBool (b : bool)
| VInt (z : Z)
| VStr (s : string)
| VTuple (l : list value)
| VFunc (id : string)
| VRef (r : loc).

(** A cell of the store. An instance carries the name of its class and its
    attributes (those of its class and its own, flattened). *)
Inductive hobj :=
| HList (l : list value)
| HDict (d : gmap string value)
| HInst (cls : string) (attrs : gmap string value).

(** What [type(x)] may answer. *)
Inductive pytype :=
| TNone | TBool | TInt | TLong | TFloat | TStr | TUnicode
| TTuple | TList | TDict | TFunction | TInstance (cls : string).

Global Instance pytype_eq_dec : EqDecision pytype.
Proof. solve_decision. Defined.

Inductive exn :=
| MethodCallError (msg : string)
| AttributeError (o : value) (name : string)
| TypeError (msg : string)
| KeyError (key : string)
| OtherError (kind msg : string).

Inductive result (A : Type) :=
| Ok (a : A)
| Raise (e : exn).
Arguments Ok {A} a.
Arguments Raise {A} e.

(** The operations a run leaves in the log. *)
Inductive event :=
| EvGetattr (o : value) (name : string)
| EvCall (f : value) (args : list value) (kwargs : gmap string value)
| EvCallRemote (proto : value) (command : string)
               (name : string) (args kwargs : value).

Record state := State {
  heap : gmap loc hobj;
  trace : list event
}.

(** ** The monad *)

Definition M (A : Type) : Type := state → result A * state.

Definition ret {A} (a : A) : M A := λ s, (Ok a, s).

Definition raise {A} (e : exn) : M A := λ s, (Raise e, s).

Definition bind {A B} (m : M A) (k : A → M B) : M B :=
  λ s, match m s with
       | (Ok a, s') => k a s'
       | (Raise e, s') => (Raise e, s')
       end.

Notation "x <~ m ; k" := (bind m (λ x, k))
  (at level 20, m at level 100, k at level 200).
Notation "m >>> k" := (bind m (λ _, k))
  (at level 100, k at level 200, right associativity).

(** [for x in xs: body x], the body working by side effect. *)
Fixpoint for_each {A} (xs : list A) (body : A → M unit) : M unit :=
  match xs with
  | [] => ret tt
  | x :: xs' => body x >>> for_each xs' body
  end.

(** [for x in xs: acc = body acc x], for a loop that rebinds one local. *)
Fixpoint for_acc {A B} (xs : list A) (body : B → A → M B) (acc : B) : M B :=
  match xs with
  | [] => ret acc
  | x :: xs' => acc' <~ body acc x; for_acc xs' body acc'
  end.

Definition log (e : event) : M unit :=
  λ s, (Ok tt, State (heap s) (trace s ++ [e])).

(** ** Store operations *)

(** A new object gets a reference no cell of the store has. *)
Definition alloc (o : hobj) : M loc :=
  λ s, let r := fresh (dom (heap s)) in
       (Ok r, State (<[r := o]> (heap s)) (trace s)).

(** [[]] and [{}] *)
Definition new_list : M loc := alloc (HList []).
Definition new_dict : M loc := alloc (HDict ∅).

(** [lst.extend(xs)] *)
Definition list_extend (lst : loc) (xs : list value) : M unit :=
  λ s, match heap s !! lst with
       | Some (HList l) =>
           (Ok tt, State (<[lst := HList (l ++ xs)]> (heap s)) (trace s))
       | _ => (Raise (AttributeError (VRef lst) "extend"), s)
       end.

(** The elements of a list, as [*lst] reads them. *)
Definition list_read (lst : loc) : M (list value) :=
  λ s, match heap s !! lst with
       | Some (HList l) => (Ok l, s)
       | _ => (Raise (TypeError "argument after * must be a sequence"), s)
       end.

(** The entries of a dictionary, as [**d] reads them. *)
Definition dict_read (d : loc) : M (gmap string value) :=
  λ s, match heap s !! d with
       | Some (HDict m) => (Ok m, s)
       | _ => (Raise (TypeError "argument after ** must be a mapping"), s)
       end.

(** [d[key] = v] *)
Definition dict_setitem (d : loc) (key : string) (v : value) : M unit :=
  λ s, match heap s !! d with
       | Some (HDict m) =>
           (Ok tt, State (<[d := HDict (<[key := v]> m)]> (heap s)) (trace s))
       | _ => (Raise (TypeError "object does not support item assignment"), s)
       end.

(** [dst.update(src)] for a dictionary [src]: the entries of [src] win. *)
Definition dict_update (dst src : loc) : M unit :=
  λ s, match heap s !! dst, heap s !! src with
       | Some (HDict m), Some (HDict m') =>
           (Ok tt, State (<[dst := HDict (m' ∪ m)]> (heap s)) (trace s))
       | Some (HDict _), _ => (Raise (TypeError "object is not iterable"), s)
       | _, _ => (Raise (AttributeError (VRef dst) "update"), s)
       end.

(** [d.copy()]: a new dictionary with the same entries. *)
Definition dict_copy (d : loc) : M loc :=
  λ s, match heap s !! d with
       | Some (HDict m) => alloc (HDict m) s
       | _ => (Raise (AttributeError (VRef d) "copy"), s)
       end.

(** Truth value of the object behind a reference: empty containers are
    false, anything else is true. *)
Definition truthy_ref (r : loc) : M bool :=
  λ s, match heap s !! r with
       | Some (HList l) => (Ok (bool_decide (l ≠ [])), s)
       | Some (HDict m) => (Ok (bool_decide (m ≠ ∅)), s)
       | _ => (Ok true, s)
       end.

(** [type(v)] *)
Definition py_type (h : gmap loc hobj) (v : value) : option pytype :=
  match v with
  | VNone => Some TNone
  | VBool _ => Some TBool
  | VInt _ => Some TInt
  | VStr _ => Some TStr
  | VTuple _ => Some TTuple
  | VFunc _ => Some TFunction
  | VRef r =>
      match h !! r with
      | Some (HList _) => Some TList
      | Some (HDict _) => Some TDict
      | Some (HInst cls _) => Some (TInstance cls)
      | None => None
      end
  end.

(** [getattr(o, name)] without the log: instances answer from their
    attributes; other values have no attribute the model knows. *)
Definition lookup_attr (h : gmap loc hobj) (o : value) (name : string)
  : option value :=
  match o with
  | VRef r =>
      match h !! r with
      | Some (HInst _ attrs) => attrs !! name
      | _ => None
      end
  | _ => None
  end.

(** [getattr(o, name)] *)
Definition py_getattr (o : value) (name : string) : M value :=
  log (EvGetattr o name) >>>
  λ s, match lookup_attr (heap s) o name with
       | Some v => (Ok v, s)
       | None => (Raise (AttributeError o name), s)
       end.

(** [s.split(".")]: the pieces of [s] between the dots; never empty, and
    [[""]] for the empty string. *)
Fixpoint split_dot (s : string) : list string :=
  match s with
  | EmptyString => [""]
  | String c s' =>
      if bool_decide (c = "."%char) then "" :: split_dot s'
      else match split_dot s' with
           | [] => [String c ""]
           | w :: ws => String c w :: ws
           end
  end.

(** ["sep".join(l)] for the dot. *)
Fixpoint join_dot (l : list string) : string :=
  match l with
  | [] => ""
  | [w] => w
  | w :: ws => w +:+ "." +:+ join_dot ws
  end.

(** ** [get_nested_attr] *)

Definition get_nested_attr (obj : value) (path : string) : M value :=
  let attr := obj in
  if bool_decide (path ≠ "") then
    for_acc (split_dot path) (λ attr name, py_getattr attr name) attr
  else ret attr.

(** The reading of the documentation: the attribute reached by taking the
    names one after the other, each from the object the previous one gave;
    no name leaves the object as it is. *)
Fixpoint getattr_chain (obj : value) (names : list string) : M value :=
  match names with
  | [] => ret obj
  | n :: ns => o <~ py_getattr obj n; getattr_chain o ns
  end.

(** ** [Method] and the table of exposed methods *)

Module Method.
Record t := {
  name : string;
  kwargs : gmap string string
}.
End Method.

(** The protocol object: itself as a value of the store (what [self] is
    when handed to [get_nested_attr]) and its [_methods_by_name]. *)
Record MethodCallProtocol := {
  self_obj : value;
  methods_by_name : gmap string Method.t
}.

(** The loop of [MethodCallProtocol.__init__] over the class's [methods]. *)
Definition build_methods_by_name (methods : list Method.t)
  : gmap string Method.t :=
  foldl (λ tbl method, <[Method.name method := method]> tbl) ∅ methods.

Definition MethodCallProtocol_init (self : value) (methods : list Method.t)
  : MethodCallProtocol :=
  {| self_obj := self; methods_by_name := build_methods_by_name methods |}.

(** ** Commands and deferreds *)

(** A response box, once parsed: the fields of [MethodCall.response]. *)
Abbreviation response := (gmap string value).

Definition response_getitem (r : response) (key : string) : result value :=
  match r !! key with
  | Some v => Ok v
  | None => Raise (KeyError key)
  end.

(** A Deferred is seen through what it ends up with once the connection
    fires it, with the answer of the peer or with a failure. *)
Definition deferred (A : Type) : Type := result response → result A.

(** [d.addCallback(f)]: [f] runs on success only, a failure passes by. *)
Definition addCallback {A B} (d : deferred A) (f : A → result B)
  : deferred B :=
  λ r, match d r with
       | Ok a => f a
       | Raise e => Raise e
       end.

(** [protocol.callRemote(command, name=.., args=.., kwargs=..)]: the
    connection takes the command and hands back the Deferred of its
    answer. What the connection does with it is outside this module. *)
Definition callRemote (proto : value) (command : string)
    (name : string) (args kwargs : value) : M (deferred response) :=
  log (EvCallRemote proto command name args kwargs) >>>
  ret (λ r, r).

(** ** [RemoteObject] *)

Record RemoteObject := { _protocol : value }.

Definition RemoteObject_init (protocol : value) : RemoteObject :=
  {| _protocol := protocol |}.

Definition protocol (self : RemoteObject) : value := _protocol self.

(** The function [send_method_call] that [_create_method_call_sender]
    returns, with [args] the tuple of positional arguments and [kwargs]
    the dictionary of keyword arguments it is called with. *)
Definition create_method_call_sender (self : RemoteObject) (name : string)
  : list value → loc → M (deferred value) :=
  λ args kwargs,
    let method_call_name := name in
    let method_call_args := args in
    method_call_kwargs <~ dict_copy kwargs;
    called <~ callRemote (protocol self) "MethodCall" method_call_name
                (VTuple method_call_args) (VRef method_call_kwargs);
    ret (addCallback called (λ response, response_getitem response "result")).

(** [RemoteObject.__getattr__] *)
Definition RemoteObject_getattr (self : RemoteObject) (name : string)
  : list value → loc → M (deferred value) :=
  create_method_call_sender self name.

(** ** The dispatcher *)

Section Dispatcher.

(** [landscape.lib.bpickle.dumps_table], through its keys: the types
    bpickle serializes. *)
Variable dumps_table : list pytype.

(** What calling a value with positional and keyword arguments does:
    the bodies of the methods of the exposed object. *)
Variable call_sem :
  value → list value → gmap string value →
  gmap loc hobj → result value * gmap loc hobj.

(** [type(inObject) in dumps_table], in the store [h]. *)
Definition check_type (h : gmap loc hobj) (inObject : value) : bool :=
  match py_type h inObject with
  | Some t => bool_decide (t ∈ dumps_table)
  | None => false
  end.

(** [MethodCallArgument.check] *)
Definition check (inObject : value) : M bool :=
  λ s, (Ok (check_type (heap s) inObject), s).

(** Calling [f] with the elements of [args] as positional arguments
    and the entries of [kw] as keyword arguments. *)
Definition py_call (f : value) (args : list value)
    (kw : gmap string value) : M value :=
  log (EvCall f args kw) >>>
  λ s, let '(r, h) := call_sem f args kw (heap s) in
       (r, State h (trace s)).

(** [MethodCallProtocol._call_object_method]; [args] is [None] or a
    sequence, [kwargs] is [None] or a dictionary of the store. *)
Definition call_object_method (self : MethodCallProtocol) (name : string)
    (args : option (list value)) (kwargs : option loc) : M response :=
  match methods_by_name self !! name with
  | None => raise (MethodCallError ("Forbidden method '" +:+ name +:+ "'"))
  | Some method =>
      factory <~ py_getattr (self_obj self) "factory";
      object <~ py_getattr factory "object";
      method_func <~ py_getattr object name;
      method_args <~ new_list;
      method_kwargs <~ new_dict;
      match args with
      | Some (x :: xs) => list_extend method_args (x :: xs)
      | _ => ret tt
      end >>>
      match kwargs with
      | Some d =>
          b <~ truthy_ref d;
          if b then dict_update method_kwargs d else ret tt
      | None => ret tt
      end >>>
      (if bool_decide (Method.kwargs method ≠ ∅) then
         for_each (map_to_list (Method.kwargs method))
           (λ kv, v <~ get_nested_attr (self_obj self) kv.2;
                  dict_setitem method_kwargs kv.1 v)
       else ret tt) >>>
      a <~ list_read method_args;
      kw <~ dict_read method_kwargs;
      result <~ py_call method_func a kw;
      ok <~ check result;
      if negb ok then raise (MethodCallError "Non-serializable result")
      else ret {[ "result" := result ]}
  end.

(** The end of [_call_object_method]: the call itself and the check of
    what it returned, for the assembled method and arguments [x]. *)
Definition call_and_check (x : value * list value * gmap string value)
  : M response :=
  result <~ py_call x.1.1 x.1.2 x.2;
  ok <~ check result;
  if negb ok then raise (MethodCallError "Non-serializable result")
  else ret {[ "result" := result ]}.

End Dispatcher.

(** ** The dispatcher up to the call

    Lines 147-157 of [_call_object_method], from the lookup of the method
    on the exposed object to the assembled arguments: what the method is
    about to be called with. [call_object_method] runs it, calls and
    checks the result ([call_object_method_factors] below). *)
Definition assemble_call (self : MethodCallProtocol) (method : Method.t)
    (name : string) (args : option (list value)) (kwargs : option loc)
  : M (value * list value * gmap string value) :=
  factory <~ py_getattr (self_obj self) "factory";
  object <~ py_getattr factory "object";
  method_func <~ py_getattr object name;
  method_args <~ new_list;
  method_kwargs <~ new_dict;
  match args with
  | Some (x :: xs) => list_extend method_args (x :: xs)
  | _ => ret tt
  end >>>
  match kwargs with
  | Some d =>
      b <~ truthy_ref d;
      if b then dict_update method_kwargs d else ret tt
  | None => ret tt
  end >>>
  (if bool_decide (Method.kwargs method ≠ ∅) then
     for_each (map_to_list (Method.kwargs method))
       (λ kv, v <~ get_nested_attr (self_obj self) kv.2;
              dict_setitem method_kwargs kv.1 v)
   else ret tt) >>>
  a <~ list_read method_args;
  kw <~ dict_read method_kwargs;
  ret (method_func, a, kw).

(** ** Attribute paths, without the monad

    What following [names] from [obj] in the store [h] gives, and the
    attribute reads it takes. *)
Fixpoint walk (h : gmap loc hobj) (obj : value) (names : list string)
  : result value * list event :=
  match names with
  | [] => (Ok obj, [])
  | n :: ns =>
      match lookup_attr h obj n with
      | Some v => let w := walk h v ns in (w.1, EvGetattr obj n :: w.2)
      | None => (Raise (AttributeError obj n), [EvGetattr obj n])
      end
  end.

Definition resolve (h : gmap loc hobj) (obj : value) (path : string)
  : result value * list event :=
  if bool_decide (path ≠ "") then walk h obj (split_dot path)
  else (Ok obj, []).

(** The positional arguments a call is made with, for the [args] of the
    command. *)
Definition args_of (args : option (list value)) : list value :=
  match args with
  | Some l => l
  | None => []
  end.

(** The method of the exposed object a command for [name] reaches:
    [getattr(self.factory.object, name)], without the log. *)
Definition exposed_method (h : gmap loc hobj) (self : value) (name : string)
  : option value :=
  match lookup_attr h self "factory" with
  | Some factory =>
      match lookup_attr h factory "object" with
      | Some object => lookup_attr h object name
      | None => None
      end
  | None => None
  end.

(** The exposed object itself, [self.factory.object]. *)
Definition exposed_object (h : gmap loc hobj) (self : value) : option value :=
  match lookup_attr h self "factory" with
  | Some factory => lookup_attr h factory "object"
  | None => None
  end.

(** The [kwargs] of a command hold the entries [dm]: [None], or a
    dictionary of the store. *)
Definition kwargs_in (h : gmap loc hobj) (kwargs : option loc)
    (dm : gmap string value) : Prop :=
  match kwargs with
  | Some d => h !! d = Some (HDict dm)
  | None => dm = ∅
  end.

(** Two stores with the same instances answer attribute reads alike. *)
Definition same_attrs (h h' : gmap loc hobj) : Prop :=
  ∀ o n, lookup_attr h o n = lookup_attr h' o n.

(** A cell that is not an instance, put where the store had none or
    another such cell, changes no attribute ([same_attrs_insert]). *)
Definition not_instance (c : option hobj) : Prop :=
  match c with
  | Some (HInst _ _) => False
  | _ => True
  end.

(** ** The store while the arguments are assembled

    [hx] is the store [h] the command arrived in, plus the two objects
    of the call under way: the list [a] at [r1] and the dictionary [cur]
    at [r2], both at references [h] does not have. *)
Definition assembling (h : gmap loc hobj) (r1 r2 : loc)
    (a : list value) (cur : gmap string value) (hx : gmap loc hobj) : Prop :=
  r1 ∉ dom h ∧ r2 ∉ dom h ∧ r1 ≠ r2 ∧
  hx = <[r2 := HDict cur]> (<[r1 := HList a]> h).

(** ** What a computation may raise *)

Definition raises_only {A} (P : exn → Prop) (m : M A) : Prop :=
  ∀ s e s', m s = (Raise e, s') → P e.

Definition not_method_call_error (e : exn) : Prop :=
  match e with
  | MethodCallError _ => False
  | _ => True
  end.

(** ** What a computation may log *)

Definition is_getattr (e : event) : bool :=
  match e with
  | EvGetattr _ _ => true
  | _ => false
  end.

(** Whatever [m] ends with, it has added to the log only entries that
    satisfy [P]. *)
Definition logs_only {A} (P : event → Prop) (m : M A) : Prop :=
  ∀ s r s', m s = (r, s') →
    ∃ evs, trace s' = (trace s ++ evs)%list ∧ Forall P evs.

(** [m] adds nothing to the log. *)
Definition silent {A} (m : M A) : Prop :=
  ∀ s, trace (m s).2 = trace s.

(** ["." in w] *)
Fixpoint has_dot (w : string) : bool :=
  match w with
  | EmptyString => false
  | String c w' => bool_decide (c = "."%char) || has_dot w'
  end.

(** ** A concrete world, for the scenarios *)

Module Example.

(** Modelled from the spec: the keys of [bpickle.dumps_table], the types
    of the Serializable-Value Contract (null, boolean, integer, float,
    string, byte-string, sequences and mappings); [bpickle] is not part
    of this module. *)
Definition bpickle_dumps_table : list pytype :=
  [TBool; TInt; TLong; TFloat; TStr; TUnicode; TList; TTuple; TDict; TNone].

(** The methods of the exposed object: [add(a, b)] returns the sum,
    [whoami(caller_id)] tells whether it was handed the protocol at
    reference 1, [bad()] returns the exposed object itself, [boom()]
    raises; anything else is not callable. *)
Definition methods_sem (f : value) (args : list value)
    (kw : gmap string value) (h : gmap loc hobj)
  : result value * gmap loc hobj :=
  match f with
  | VFunc "add" =>
      match args with
      | [VInt a; VInt b] => (Ok (VInt (a + b)), h)
      | _ => (Raise (TypeError "add() takes two integers"), h)
      end
  | VFunc "whoami" =>
      match kw !! "caller_id" with
      | Some (VRef r) => (Ok (VBool (bool_decide (r = 1%positive))), h)
      | _ => (Raise (TypeError "whoami() needs caller_id"), h)
      end
  | VFunc "bad" => (Ok (VRef 3%positive), h)
  | VFunc "boom" => (Raise (OtherError "ValueError" "boom"), h)
  | _ => (Raise (TypeError "object is not callable"), h)
  end.

(** The protocol at reference 1, its factory at 2, the exposed object
    at 3, an empty dictionary at 4, and at 5 the dictionary of a
    caller that names a keyword argument [caller_id] itself. *)
Definition world : gmap loc hobj :=
  {[ 1%positive := HInst "MethodCallProtocol"
                     {[ "factory" := VRef 2%positive ]};
     2%positive := HInst "MethodCallServerFactory"
                     {[ "object" := VRef 3%positive ]};
     3%positive := HInst "Calculator"
                     {[ "add" := VFunc "add"; "whoami" := VFunc "whoami";
                        "bad" := VFunc "bad"; "boom" := VFunc "boom" ]};
     4%positive := HDict ∅;
     5%positive := HDict {[ "caller_id" := VInt 7 ]} ]}.

Definition s0 : state := State world [].

(** [Method("whoami", caller_id="")]: the path of the extra is empty,
    the protocol itself is handed over. *)
Definition whoami : Method.t :=
  {| Method.name := "whoami"; Method.kwargs := {[ "caller_id" := "" ]} |}.

(** [Method(name)], with no extras. *)
Definition plain (name : string) : Method.t :=
  {| Method.name := name; Method.kwargs := ∅ |}.

Definition methods : list Method.t :=
  [ plain "add"; whoami; plain "bad"; plain "boom"; plain "missing" ].

Definition proto : MethodCallProtocol :=
  MethodCallProtocol_init (VRef 1%positive) methods.

Definition dispatch :=
  call_object_method bpickle_dumps_table methods_sem proto.

End Example.

(** * Properties *)

(** ** The monad *)

Lemma bind_ok {A B} (m : M A) (k : A → M B) s a s' :
  m s = (Ok a, s') → bind m k s = k a s'.
Proof. intros H. unfold bind. by rewrite H. Qed.

Lemma bind_raise {A B} (m : M A) (k : A → M B) s e s' :
  m s = (Raise e, s') → bind m k s = (Raise e, s').
Proof. intros H. unfold bind. by rewrite H. Qed.

Lemma bind_inv_ok {A B} (m : M A) (k : A → M B) s b s2 :
  bind m k s = (Ok b, s2) →
  ∃ a s1, m s = (Ok a, s1) ∧ k a s1 = (Ok b, s2).
Proof.
  unfold bind. destruct (m s) as [[a|e] s1]; [eauto | discriminate].
Qed.

(** Two continuations that agree on what the first part can give. *)
Lemma bind_ext {A B} (m : M A) (k k' : A → M B) s :
  (∀ a s', m s = (Ok a, s') → k a s' = k' a s') →
  bind m k s = bind m k' s.
Proof.
  intros H. unfold bind. destruct (m s) as [[a|e] s']; [by apply H | done].
Qed.

Lemma bind_cong_l {A B} (m m' : M A) (k : A → M B) s :
  m s = m' s → bind m k s = bind m' k s.
Proof. intros H. unfold bind. by rewrite H. Qed.

Lemma bind_assoc {A B C} (m : M A) (k : A → M B) (k' : B → M C) s :
  bind (bind m k) k' s = bind m (λ a, bind (k a) k') s.
Proof. unfold bind. by destruct (m s) as [[a|e] s']. Qed.

(** ** Attribute reads *)

Lemma py_getattr_run o n s :
  py_getattr o n s =
    (match lookup_attr (heap s) o n with
     | Some v => Ok v
     | None => Raise (AttributeError o n)
     end, State (heap s) (trace s ++ [EvGetattr o n])).
Proof.
  unfold py_getattr, bind, log; simpl.
  by destruct (lookup_attr (heap s) o n).
Qed.

Lemma for_acc_getattr_run names : ∀ obj s,
  for_acc names (λ attr name, py_getattr attr name) obj s =
    ((walk (heap s) obj names).1,
     State (heap s) (trace s ++ (walk (heap s) obj names).2)).
Proof.
  induction names as [|n ns IH]; intros obj s; simpl.
  - unfold ret. rewrite app_nil_r. by destruct s.
  - unfold bind. rewrite py_getattr_run.
    destruct (lookup_attr (heap s) obj n) as [v|]; simpl.
    + rewrite IH; simpl. by rewrite <- app_assoc.
    + done.
Qed.

Lemma get_nested_attr_run obj path s :
  get_nested_attr obj path s =
    ((resolve (heap s) obj path).1,
     State (heap s) (trace s ++ (resolve (heap s) obj path).2)).
Proof.
  unfold get_nested_attr, resolve. case_bool_decide.
  - apply for_acc_getattr_run.
  - unfold ret; simpl. rewrite app_nil_r. by destruct s.
Qed.


Lemma walk_same_attrs h h' names :
  same_attrs h h' → ∀ obj, walk h obj names = walk h' obj names.
Proof.
  intros E. induction names as [|n ns IH]; intros obj; simpl; [done|].
  rewrite (E obj n). destruct (lookup_attr h' obj n); [by rewrite IH | done].
Qed.

Lemma resolve_same_attrs h h' obj path :
  same_attrs h h' → resolve h obj path = resolve h' obj path.
Proof.
  intros E. unfold resolve. case_bool_decide; [by apply walk_same_attrs | done].
Qed.


Lemma same_attrs_insert h r c :
  not_instance (h !! r) → not_instance (Some c) →
  same_attrs (<[r := c]> h) h.
Proof.
  intros Hold Hnew o n. destruct o as [| | | | | |r']; simpl; try done.
  destruct (decide (r = r')) as [->|Hne].
  - rewrite lookup_insert_eq.
    destruct c; simpl in *; try done;
      destruct (h !! r') as [[]|]; simpl in *; done.
  - by rewrite lookup_insert_ne.
Qed.

Lemma same_attrs_trans h1 h2 h3 :
  same_attrs h1 h2 → same_attrs h2 h3 → same_attrs h1 h3.
Proof. intros E1 E2 o n. by rewrite E1. Qed.


Section Assembling.
Context {h : gmap loc hobj} {r1 r2 : loc} {a : list value}
        {cur : gmap string value} {hx : gmap loc hobj}.
Hypothesis Hasm : assembling h r1 r2 a cur hx.

Lemma assembling_list : hx !! r1 = Some (HList a).
Proof.
  destruct Hasm as (_ & _ & Hne & ->).
  rewrite lookup_insert_ne by done. apply lookup_insert_eq.
Qed.

Lemma assembling_dict : hx !! r2 = Some (HDict cur).
Proof. destruct Hasm as (_ & _ & _ & ->). apply lookup_insert_eq. Qed.

Lemma assembling_frame r : r ∈ dom h → hx !! r = h !! r.
Proof.
  destruct Hasm as (H1 & H2 & _ & ->). intros Hr.
  rewrite !lookup_insert_ne; [done | set_solver | set_solver].
Qed.

Lemma assembling_same_attrs : same_attrs hx h.
Proof.
  destruct Hasm as (H1 & H2 & Hne & ->).
  apply not_elem_of_dom in H1, H2.
  eapply same_attrs_trans; apply same_attrs_insert; try done.
  - rewrite lookup_insert_ne by done. by rewrite H2.
  - by rewrite H1.
Qed.

Lemma assembling_extend xs :
  assembling h r1 r2 (a ++ xs) cur (<[r1 := HList (a ++ xs)]> hx).
Proof.
  destruct Hasm as (H1 & H2 & Hne & ->). repeat split; try done.
  rewrite insert_insert_ne by done. by rewrite insert_insert_eq.
Qed.

Lemma assembling_set cur' :
  assembling h r1 r2 a cur' (<[r2 := HDict cur']> hx).
Proof.
  destruct Hasm as (H1 & H2 & Hne & ->). repeat split; try done.
  by rewrite insert_insert_eq.
Qed.
End Assembling.

Lemma alloc_two s :
  let r1 := fresh (dom (heap s)) in
  let h1 := <[r1 := HList []]> (heap s) in
  let r2 := fresh (dom h1) in
  assembling (heap s) r1 r2 [] ∅ (<[r2 := HDict ∅]> h1).
Proof.
  intros r1 h1 r2.
  assert (H1 : r1 ∉ dom (heap s)) by apply is_fresh.
  assert (H2 : r2 ∉ dom h1) by apply is_fresh.
  unfold h1 in H2. rewrite dom_insert_L in H2.
  repeat split; [done | set_solver | set_solver].
Qed.

(** ** The loop over the extra keyword arguments *)

Section ExtrasLoop.
Variables (h : gmap loc hobj) (r1 r2 : loc) (a : list value).
Variable self : value.

Let body : string * string → M unit :=
  λ kv, v <~ get_nested_attr self kv.2; dict_setitem r2 kv.1 v.

Lemma extras_body_run k p cur s :
  assembling h r1 r2 a cur (heap s) →
  body (k, p) s =
    match (resolve h self p).1 with
    | Ok v => (Ok tt, State (<[r2 := HDict (<[k := v]> cur)]> (heap s))
                            (trace s ++ (resolve h self p).2))
    | Raise e => (Raise e, State (heap s) (trace s ++ (resolve h self p).2))
    end.
Proof.
  intros Hasm. unfold body, bind. rewrite get_nested_attr_run.
  rewrite (resolve_same_attrs _ h) by apply (assembling_same_attrs Hasm).
  cbn [fst snd]. destruct (resolve h self p).1 as [v|e]; [|done].
  unfold dict_setitem; cbn [heap trace fst snd].
  by rewrite (assembling_dict Hasm).
Qed.

Lemma extras_loop l :
  NoDup l.*1 → ∀ cur s,
  assembling h r1 r2 a cur (heap s) →
  ∃ cur', assembling h r1 r2 a cur' (heap (for_each l body s).2) ∧
    match (for_each l body s).1 with
    | Ok _ =>
        (∀ k p, (k, p) ∈ l →
           ∃ v, (resolve h self p).1 = Ok v ∧ cur' !! k = Some v) ∧
        (∀ k, k ∉ l.*1 → cur' !! k = cur !! k)
    | Raise _ =>
        ∃ k p e, (k, p) ∈ l ∧ (resolve h self p).1 = Raise e
    end.
Proof.
  induction l as [|[k p] l IH]; intros Hnd cur s Hasm.
  - exists cur. split; [done|]. split; [|done].
    intros k p Hin. by apply elem_of_nil in Hin.
  - rewrite fmap_cons in Hnd. apply NoDup_cons in Hnd as [Hk Hnd].
    cbn [for_each]. unfold bind at 1 2.
    rewrite (extras_body_run k p cur s Hasm).
    destruct (resolve h self p).1 as [v|e] eqn:Hres.
    + pose proof (assembling_set Hasm (<[k := v]> cur)) as Hasm'.
      set (s1 := State _ _).
      destruct (IH Hnd (<[k := v]> cur) s1 Hasm') as (cur' & Hc & Hpost).
      exists cur'. split; [done|].
      destruct (for_each l body s1).1 as [[]|e].
      * destruct Hpost as [Hin Hout]. split.
        -- intros k' p' [Heq|Hin']%elem_of_cons.
           ++ inversion Heq; subst. exists v. split; [done|].
              rewrite Hout by done. apply lookup_insert_eq.
           ++ by apply Hin.
        -- intros k' Hk'. rewrite fmap_cons in Hk'.
           apply not_elem_of_cons in Hk' as [Hne Hk'].
           rewrite Hout by done. by rewrite lookup_insert_ne.
      * destruct Hpost as (k' & p' & e' & Hin & He).
        exists k', p', e'. split; [apply elem_of_cons; by right | done].
    + exists cur. split; [done|].
      exists k, p, e. split; [apply elem_of_cons; by left | done].
Qed.
End ExtrasLoop.

(** ** The steps of the assembly *)

Section Steps.
Context {h : gmap loc hobj} {r1 r2 : loc}.

Lemma args_step args s :
  assembling h r1 r2 [] ∅ (heap s) →
  let m := match args with
           | Some (x :: xs) => list_extend r1 (x :: xs)
           | _ => ret tt
           end in
  (m s).1 = Ok tt ∧ trace (m s).2 = trace s ∧
  assembling h r1 r2 (args_of args) ∅ (heap (m s).2).
Proof.
  intros Hasm. destruct args as [[|x xs]|]; simpl; try done.
  unfold list_extend. rewrite (assembling_list Hasm). simpl.
  split; [done|]. split; [done|].
  apply (assembling_extend Hasm (x :: xs)).
Qed.

Lemma kwargs_step a kwargs s :
  assembling h r1 r2 a ∅ (heap s) →
  let m := match kwargs with
           | Some d =>
               b <~ truthy_ref d;
               if b then dict_update r2 d else ret tt
           | None => ret tt
           end in
  trace (m s).2 = trace s ∧
  ∃ cur, assembling h r1 r2 a cur (heap (m s).2) ∧
    ∀ dm, kwargs_in h kwargs dm → (m s).1 = Ok tt ∧ cur = dm.
Proof.
  intros Hasm. destruct kwargs as [d|]; simpl.
  - unfold bind, truthy_ref, dict_update.
    pose proof (assembling_dict Hasm) as Hr2.
    destruct (heap s !! d) as [[l|m'|c ats]|] eqn:Hd; simpl.
    + case_bool_decide; simpl; rewrite ?Hr2, ?Hd; simpl;
        (split; [done|]); exists ∅; (split; [done|]);
        intros dm Hin;
        rewrite <- (assembling_frame Hasm d) in Hin
          by (by apply elem_of_dom_2 in Hin); congruence.
    + case_bool_decide as Hm'; simpl; rewrite ?Hr2, ?Hd; simpl.
      * split; [done|]. exists (m' ∪ ∅).
        split; [apply (assembling_set Hasm)|].
        intros dm Hin. split; [done|].
        rewrite (right_id_L ∅ (∪)).
        rewrite <- (assembling_frame Hasm d) in Hin; [congruence|].
        by apply elem_of_dom_2 in Hin.
      * split; [done|]. exists ∅. split; [done|].
        intros dm Hin. split; [done|].
        rewrite <- (assembling_frame Hasm d) in Hin
          by by apply elem_of_dom_2 in Hin.
        subst m'. congruence.
    + rewrite ?Hr2, ?Hd; simpl. split; [done|].
      exists ∅. split; [done|].
      intros dm Hin.
      rewrite <- (assembling_frame Hasm d) in Hin
        by by apply elem_of_dom_2 in Hin.
      congruence.
    + rewrite ?Hr2, ?Hd; simpl. split; [done|].
      exists ∅. split; [done|].
      intros dm Hin.
      rewrite <- (assembling_frame Hasm d) in Hin
        by by apply elem_of_dom_2 in Hin.
      congruence.
  - split; [done|]. exists ∅. split; [done|]. by intros dm ->.
Qed.
End Steps.

Lemma extras_step {h r1 r2 a cur} self (extras : gmap string string) s :
  assembling h r1 r2 a cur (heap s) →
  let m := if bool_decide (extras ≠ ∅) then
             for_each (map_to_list extras)
               (λ kv, v <~ get_nested_attr self kv.2;
                      dict_setitem r2 kv.1 v)
           else ret tt in
  ∃ cur', assembling h r1 r2 a cur' (heap (m s).2) ∧
    match (m s).1 with
    | Ok _ =>
        (∀ k p, extras !! k = Some p →
           ∃ v, (resolve h self p).1 = Ok v ∧ cur' !! k = Some v) ∧
        (∀ k, extras !! k = None → cur' !! k = cur !! k)
    | Raise _ =>
        ∃ k p e, extras !! k = Some p ∧ (resolve h self p).1 = Raise e
    end.
Proof.
  intros Hasm m. unfold m. case_bool_decide as Hne.
  - destruct (extras_loop h r1 r2 a self (map_to_list extras)
                (NoDup_fst_map_to_list extras) cur s Hasm)
      as (cur' & Hasm' & Hpost).
    exists cur'. split; [done|].
    match goal with |- match ?x with _ => _ end => destruct x as [[]|e] end.
    + destruct Hpost as [Hin Hout]. split.
      * intros k p Hk. apply Hin. by apply elem_of_map_to_list.
      * intros k Hk. apply Hout.
        intros ([k' p] & -> & Hkp)%list_elem_of_fmap.
        apply elem_of_map_to_list in Hkp. simpl in Hk. congruence.
    + destruct Hpost as (k & p & e' & Hin & He).
      exists k, p, e'. split; [by apply elem_of_map_to_list | done].
  - subst extras. exists cur. split; [done|]. simpl. split.
    + intros k p Hk. by rewrite lookup_empty in Hk.
    + done.
Qed.

(** ** What the assembly gives *)

Lemma assemble_call_spec self method name args kwargs s :
  let h := heap s in
  let out := assemble_call self method name args kwargs s in
  (∀ r, r ∈ dom h → heap out.2 !! r = h !! r) ∧
  same_attrs (heap out.2) h ∧
  match out.1 with
  | Ok (f, a, kw) =>
      exposed_method h (self_obj self) name = Some f ∧
      a = args_of args ∧
      (∀ k p, Method.kwargs method !! k = Some p →
         ∃ v, (resolve h (self_obj self) p).1 = Ok v ∧ kw !! k = Some v) ∧
      (∀ dm, kwargs_in h kwargs dm →
         ∀ k, Method.kwargs method !! k = None → kw !! k = dm !! k)
  | Raise _ =>
      ∀ dm, kwargs_in h kwargs dm →
        exposed_method h (self_obj self) name = None ∨
        ∃ k p e, Method.kwargs method !! k = Some p ∧
                 (resolve h (self_obj self) p).1 = Raise e
  end.
Proof.
  intros h out. unfold exposed_method.
  assert (Hout : out = assemble_call self method name args kwargs s) by done.
  clearbody out. unfold assemble_call in Hout.
  assert (Hearly : ∀ e (t : list event),
    let out := (@Raise (value * list value * response) e, State h t) in
    (∀ r, r ∈ dom h → heap out.2 !! r = h !! r) ∧
    same_attrs (heap out.2) h ∧
    ∀ dm, kwargs_in h kwargs dm →
      @None value = None ∨
      ∃ k p e, Method.kwargs method !! k = Some p ∧
               (resolve h (self_obj self) p).1 = Raise e).
  { intros e t. split; [done|]. split; [by intros ??|]. intros; by left. }
  unfold bind at 1 in Hout. rewrite py_getattr_run in Hout. fold h in Hout.
  destruct (lookup_attr h (self_obj self) "factory") as [fac|];
    [|subst out; by apply Hearly].
  unfold bind at 1 in Hout. rewrite py_getattr_run in Hout.
  cbn [heap] in Hout.
  destruct (lookup_attr h fac "object") as [obj|];
    [|subst out; by apply Hearly].
  unfold bind at 1 in Hout. rewrite py_getattr_run in Hout.
  cbn [heap] in Hout.
  destruct (lookup_attr h obj name) as [f|];
    [|subst out; by apply Hearly].
  clear Hearly.
  unfold bind at 1 2, new_list, new_dict, alloc in Hout.
  cbn [heap trace] in Hout.
  pose proof (alloc_two s) as Hasm0. cbn zeta in Hasm0.
  fold h in Hasm0, Hout.
  set (r1 := fresh (dom h)) in *.
  set (r2 := fresh (dom (<[r1 := HList []]> h))) in *.
  set (sB := State (<[r2 := HDict ∅]> (<[r1 := HList []]> h)) _) in Hout.
  destruct (args_step args sB Hasm0) as (HokA & _ & HasmA).
  unfold bind at 1 in Hout. cbn zeta in HokA, HasmA.
  match type of Hout with context [match ?m sB with _ => _ end] =>
    destruct (m sB) as [ra sC] end.
  cbn [fst snd] in HokA, HasmA. subst ra.
  destruct (kwargs_step (args_of args) kwargs sC HasmA)
    as (_ & cur & HasmK & HokK).
  unfold bind at 1 in Hout. cbn zeta in HasmK, HokK.
  match type of Hout with context [match ?m sC with _ => _ end] =>
    destruct (m sC) as [rk sD] end.
  cbn [fst snd] in HasmK, HokK.
  destruct rk as [[]|e].
  2:{ subst out. cbn [fst snd].
      split; [intros r; apply (assembling_frame HasmK)|].
      split; [apply (assembling_same_attrs HasmK)|].
      intros dm Hin. by destruct (HokK dm Hin). }
  destruct (extras_step (self_obj self) (Method.kwargs method) sD HasmK)
    as (cur' & HasmE & Hpost).
  unfold bind at 1 in Hout. cbn zeta in HasmE, Hpost.
  match type of Hout with context [match ?m sD with _ => _ end] =>
    destruct (m sD) as [re sE] end.
  cbn [fst snd] in HasmE, Hpost.
  destruct re as [[]|e].
  2:{ subst out. cbn [fst snd].
      split; [intros r; apply (assembling_frame HasmE)|].
      split; [apply (assembling_same_attrs HasmE)|].
      intros dm Hin. by right. }
  unfold bind, list_read, dict_read in Hout.
  rewrite (assembling_list HasmE), (assembling_dict HasmE) in Hout.
  subst out. cbn [fst snd ret].
  split; [intros r; apply (assembling_frame HasmE)|].
  split; [apply (assembling_same_attrs HasmE)|].
  destruct Hpost as [Hin Hout].
  repeat split; [done|].
  intros dm Hdm k Hk. rewrite Hout by done.
  by destruct (HokK dm Hdm) as [_ ->].
Qed.

(** ** The errors of the assembly *)

Lemma raises_only_bind {A B} P (m : M A) (k : A → M B) :
  raises_only P m → (∀ a, raises_only P (k a)) → raises_only P (bind m k).
Proof.
  intros Hm Hk s e s'. unfold bind.
  destruct (m s) as [[a|e1] s1] eqn:E.
  - apply Hk.
  - intros [= <- <-]. by eapply Hm.
Qed.

Lemma raises_only_ret {A} P (a : A) : raises_only P (ret a).
Proof. by intros s e s'. Qed.

Lemma raises_only_for_each {A} P (l : list A) (body : A → M unit) :
  (∀ x, raises_only P (body x)) → raises_only P (for_each l body).
Proof.
  intros Hb. induction l as [|x l IH]; simpl.
  - apply raises_only_ret.
  - apply raises_only_bind; [apply Hb | by intros _].
Qed.

Lemma walk_raises h names : ∀ obj e,
  (walk h obj names).1 = Raise e → not_method_call_error e.
Proof.
  induction names as [|n ns IH]; intros obj e; simpl; [done|].
  destruct (lookup_attr h obj n) as [v|]; simpl.
  - apply IH.
  - by intros [= <-].
Qed.

Lemma get_nested_attr_raises obj path :
  raises_only not_method_call_error (get_nested_attr obj path).
Proof.
  intros s e s'. rewrite get_nested_attr_run. intros [= H _]. revert H.
  unfold resolve. case_bool_decide; [apply walk_raises | done].
Qed.

Lemma py_getattr_raises o n :
  raises_only not_method_call_error (py_getattr o n).
Proof.
  intros s e s'. rewrite py_getattr_run.
  destruct (lookup_attr (heap s) o n); [done | by intros [= <- _]].
Qed.

Lemma alloc_raises c : raises_only not_method_call_error (alloc c).
Proof. by intros s e s'. Qed.

Lemma list_extend_raises r xs :
  raises_only not_method_call_error (list_extend r xs).
Proof.
  intros s e s'. unfold list_extend.
  destruct (heap s !! r) as [[]|]; by intros [= <- _].
Qed.

Lemma truthy_ref_raises r : raises_only not_method_call_error (truthy_ref r).
Proof.
  intros s e s'. unfold truthy_ref. by destruct (heap s !! r) as [[]|].
Qed.

Lemma dict_update_raises r d :
  raises_only not_method_call_error (dict_update r d).
Proof.
  intros s e s'. unfold dict_update.
  destruct (heap s !! r) as [[]|]; try (by intros [= <- _]).
  destruct (heap s !! d) as [[]|]; by intros [= <- _].
Qed.

Lemma dict_setitem_raises r k v :
  raises_only not_method_call_error (dict_setitem r k v).
Proof.
  intros s e s'. unfold dict_setitem.
  destruct (heap s !! r) as [[]|]; by intros [= <- _].
Qed.

Lemma list_read_raises r : raises_only not_method_call_error (list_read r).
Proof.
  intros s e s'. unfold list_read.
  destruct (heap s !! r) as [[]|]; by intros [= <- _].
Qed.

Lemma dict_read_raises r : raises_only not_method_call_error (dict_read r).
Proof.
  intros s e s'. unfold dict_read.
  destruct (heap s !! r) as [[]|]; by intros [= <- _].
Qed.

Create HintDb raises.
#[export] Hint Resolve raises_only_ret get_nested_attr_raises
  py_getattr_raises alloc_raises list_extend_raises truthy_ref_raises
  dict_update_raises dict_setitem_raises list_read_raises
  dict_read_raises : raises.

(** Before the call, the dispatcher raises what attribute reads and the
    operations on its own list and dictionary raise, and no
    [MethodCallError]. *)
Lemma assemble_call_raises self method name args kwargs :
  raises_only not_method_call_error
    (assemble_call self method name args kwargs).
Proof.
  unfold assemble_call, new_list, new_dict.
  repeat first [ solve [auto with raises]
               | apply raises_only_bind; [|intros ?] ].
  - destruct args as [[|]|]; auto with raises.
  - destruct kwargs; auto with raises.
    apply raises_only_bind; [auto with raises|].
    intros []; auto with raises.
  - case_bool_decide; auto with raises.
    apply raises_only_for_each. intros kv.
    apply raises_only_bind; auto with raises.
Qed.

(** The assembly succeeds as soon as the method is there and the paths of
    the extra arguments lead somewhere. *)
Lemma assemble_call_total self method name args kwargs s f dm :
  exposed_method (heap s) (self_obj self) name = Some f →
  kwargs_in (heap s) kwargs dm →
  (∀ k p, Method.kwargs method !! k = Some p →
     ∃ v, (resolve (heap s) (self_obj self) p).1 = Ok v) →
  ∃ kw s1,
    assemble_call self method name args kwargs s
      = (Ok (f, args_of args, kw), s1).
Proof.
  intros Hf Hdm Hres.
  pose proof (assemble_call_spec self method name args kwargs s) as Hspec.
  cbn zeta in Hspec.
  destruct (assemble_call self method name args kwargs s)
    as [[[[f' a'] kw']|e] s1]; cbn [fst snd] in Hspec.
  - destruct Hspec as (_ & _ & Hf' & -> & _).
    exists kw', s1. congruence.
  - destruct Hspec as (_ & _ & Hfail).
    destruct (Hfail dm Hdm) as [Hnone|(k & p & e' & Hk & He)].
    + congruence.
    + destruct (Hres k p Hk) as [v Hv]. congruence.
Qed.

(** An empty dictionary for [kwargs] is as good as none. *)
Lemma assemble_call_kwargs_empty self method name args d s :
  heap s !! d = Some (HDict ∅) →
  assemble_call self method name args None s
    = assemble_call self method name args (Some d) s.
Proof.
  intros Hd. unfold assemble_call.
  apply bind_ext. intros fac sa Ha. rewrite py_getattr_run in Ha.
  apply bind_ext. intros obj sb Hb. rewrite py_getattr_run in Hb.
  apply bind_ext. intros f sc Hc. rewrite py_getattr_run in Hc.
  assert (Hh : heap sc = heap s).
  { injection Ha as _ <-. injection Hb as _ <-. by injection Hc as _ <-. }
  clear Ha Hb Hc.
  pose proof (alloc_two sc) as Hasm0. cbn zeta in Hasm0.
  apply bind_ext. intros r1 s1 H1. injection H1 as <- <-.
  apply bind_ext. intros r2 sB H2. injection H2 as <- <-.
  cbn [heap trace]. set (sB := State _ _).
  change (heap sB) with (heap sB) in Hasm0.
  apply bind_ext. intros [] sC HC.
  destruct (args_step (h := heap sc) args sB Hasm0) as (_ & _ & HasmA).
  cbn zeta in HasmA. rewrite HC in HasmA. cbn [snd] in HasmA.
  assert (HdC : heap sC !! d = Some (HDict ∅)).
  { rewrite (assembling_frame HasmA); [congruence|].
    rewrite Hh. by apply elem_of_dom_2 in Hd. }
  apply bind_cong_l. unfold bind, truthy_ref. rewrite HdC.
  by rewrite bool_decide_eq_false_2 by (by intros ?).
Qed.

(** ** The dispatcher, in two parts *)

Section DispatcherFacts.
Variable dumps_table : list pytype.
Variable call_sem :
  value → list value → gmap string value →
  gmap loc hobj → result value * gmap loc hobj.

Local Abbreviation dispatch := (call_object_method dumps_table call_sem).
Local Abbreviation finish := (call_and_check dumps_table call_sem).

Lemma call_object_method_factors self name args kwargs s :
  dispatch self name args kwargs s =
    match methods_by_name self !! name with
    | None =>
        (Raise (MethodCallError ("Forbidden method '" +:+ name +:+ "'")), s)
    | Some method =>
        bind (assemble_call self method name args kwargs) finish s
    end.
Proof.
  unfold call_object_method, assemble_call.
  destruct (methods_by_name self !! name) as [method|]; [|done].
  repeat (rewrite bind_assoc; apply bind_ext; intros ? ? _).
  done.
Qed.

Lemma call_and_check_run f a kw s :
  finish (f, a, kw) s =
    let s1 := State (call_sem f a kw (heap s)).2
                    (trace s ++ [EvCall f a kw]) in
    match (call_sem f a kw (heap s)).1 with
    | Ok v =>
        if check_type dumps_table (heap s1) v
        then (Ok {[ "result" := v ]}, s1)
        else (Raise (MethodCallError "Non-serializable result"), s1)
    | Raise e => (Raise e, s1)
    end.
Proof.
  unfold call_and_check, bind, py_call, log, check; cbn.
  destruct (call_sem f a kw (heap s)) as [[v|e] h2]; cbn; [|done].
  by destruct (check_type dumps_table h2 v).
Qed.

(** The dispatcher reaching the call: its outcome is the one of the call
    and of the check. *)
Lemma dispatch_reaching_call self name method args kwargs s f a kw s1 :
  methods_by_name self !! name = Some method →
  assemble_call self method name args kwargs s = (Ok (f, a, kw), s1) →
  dispatch self name args kwargs s = finish (f, a, kw) s1.
Proof.
  intros Hm Hasm. rewrite call_object_method_factors, Hm.
  by apply bind_ok.
Qed.

(** The dispatcher failing before the call. *)
Lemma dispatch_failing_early self name method args kwargs s e s1 :
  methods_by_name self !! name = Some method →
  assemble_call self method name args kwargs s = (Raise e, s1) →
  dispatch self name args kwargs s = (Raise e, s1).
Proof.
  intros Hm Hasm. rewrite call_object_method_factors, Hm.
  by apply bind_raise.
Qed.

(** ** The claims on the dispatcher *)

(** C1. A command whose name is not a key of [_methods_by_name] is
    answered by [MethodCallError("Forbidden method '<name>'")], and the
    run leaves the state as it found it: the store is untouched and the
    log has no new entry, so no attribute was read, of the exposed
    object or of anything else, and nothing was called. *)
Theorem forbidden_method self name args kwargs s :
  methods_by_name self !! name = None →
  dispatch self name args kwargs s =
    (Raise (MethodCallError ("Forbidden method '" +:+ name +:+ "'")), s).
Proof.
  intros Hnone. unfold call_object_method. by rewrite Hnone.
Qed.

(** C2. When the method of a whitelisted name is reached and returns a
    value [v] that [MethodCallArgument.check] refuses, the dispatcher
    raises [MethodCallError("Non-serializable result")]: it returns no
    response at all, so [v] is in none, and the run ends with the call
    as the last entry of its log. *)
Theorem non_serializable_result
    self name method args kwargs s f a kw s1 v h2 :
  methods_by_name self !! name = Some method →
  assemble_call self method name args kwargs s = (Ok (f, a, kw), s1) →
  call_sem f a kw (heap s1) = (Ok v, h2) →
  check_type dumps_table h2 v = false →
  dispatch self name args kwargs s =
    (Raise (MethodCallError "Non-serializable result"),
     State h2 (trace s1 ++ [EvCall f a kw])) ∧
  ∀ r : response, (dispatch self name args kwargs s).1 ≠ Ok r.
Proof.
  intros Hm Hasm Hcall Hcheck.
  rewrite (dispatch_reaching_call _ _ _ _ _ _ _ _ _ _ Hm Hasm).
  rewrite call_and_check_run, Hcall. cbn. rewrite Hcheck. by split.
Qed.

(** C3. Whenever the method of a whitelisted name is called, and it is
    called with the keyword arguments [kw] and that once, every entry
    [key: path] of the method's extras has [key] in [kw], bound to what
    [get_nested_attr(self, path)] gives, in the state the call is made
    in as in the one the command arrived in; this whatever the caller
    had put under [key], since the caller's entries are copied first. *)
Theorem extras_injected
    self name method args kwargs s f a kw s1 key path :
  methods_by_name self !! name = Some method →
  assemble_call self method name args kwargs s = (Ok (f, a, kw), s1) →
  Method.kwargs method !! key = Some path →
  trace (dispatch self name args kwargs s).2
    = (trace s1 ++ [EvCall f a kw])%list ∧
  ∃ v, kw !! key = Some v ∧
       (get_nested_attr (self_obj self) path s1).1 = Ok v ∧
       (get_nested_attr (self_obj self) path s).1 = Ok v.
Proof.
  intros Hm Hasm Hkey. split.
  - rewrite (dispatch_reaching_call _ _ _ _ _ _ _ _ _ _ Hm Hasm).
    rewrite call_and_check_run. cbn zeta.
    destruct (call_sem f a kw (heap s1)).1; [|done].
    by destruct (check_type _ _ _).
  - pose proof (assemble_call_spec self method name args kwargs s) as Hspec.
    cbn zeta in Hspec. rewrite Hasm in Hspec. cbn [fst snd] in Hspec.
    destruct Hspec as (_ & Hsame & _ & _ & Hextras & _).
    destruct (Hextras key path Hkey) as (v & Hv & Hkw).
    exists v. split; [done|]. rewrite !get_nested_attr_run. cbn [fst].
    by rewrite (resolve_same_attrs _ _ _ _ Hsame).
Qed.

(** C4. When the method of a whitelisted name is reached and returns a
    value [r] that [MethodCallArgument.check] accepts, the dispatcher
    returns the response [{"result": r}]. *)
Theorem success_response
    self name method args kwargs s f a kw s1 r h2 :
  methods_by_name self !! name = Some method →
  assemble_call self method name args kwargs s = (Ok (f, a, kw), s1) →
  call_sem f a kw (heap s1) = (Ok r, h2) →
  check_type dumps_table h2 r = true →
  dispatch self name args kwargs s =
    (Ok {[ "result" := r ]}, State h2 (trace s1 ++ [EvCall f a kw])).
Proof.
  intros Hm Hasm Hcall Hcheck.
  rewrite (dispatch_reaching_call _ _ _ _ _ _ _ _ _ _ Hm Hasm).
  rewrite call_and_check_run, Hcall. cbn. by rewrite Hcheck.
Qed.

(** C7. What the body of the method raises leaves the dispatcher as it
    is, whatever it is. And a [MethodCallError] out of the dispatcher
    is the one of a name that is not whitelisted, or the one of a
    result that is not serializable, or was raised as such by the body:
    nothing else is turned into one. *)
Theorem method_exception_propagates self name args kwargs s :
  (∀ method f a kw s1 e h2,
     methods_by_name self !! name = Some method →
     assemble_call self method name args kwargs s = (Ok (f, a, kw), s1) →
     call_sem f a kw (heap s1) = (Raise e, h2) →
     dispatch self name args kwargs s =
       (Raise e, State h2 (trace s1 ++ [EvCall f a kw]))) ∧
  (∀ msg s',
     dispatch self name args kwargs s = (Raise (MethodCallError msg), s') →
     (methods_by_name self !! name = None ∧
      msg = "Forbidden method '" +:+ name +:+ "'") ∨
     ∃ method f a kw s1,
       methods_by_name self !! name = Some method ∧
       assemble_call self method name args kwargs s = (Ok (f, a, kw), s1) ∧
       ((call_sem f a kw (heap s1)).1 = Raise (MethodCallError msg) ∨
        (msg = "Non-serializable result" ∧
         ∃ v, (call_sem f a kw (heap s1)).1 = Ok v ∧
              check_type dumps_table (call_sem f a kw (heap s1)).2 v
                = false))).
Proof.
  split.
  - intros method f a kw s1 e h2 Hm Hasm Hcall.
    rewrite (dispatch_reaching_call _ _ _ _ _ _ _ _ _ _ Hm Hasm).
    by rewrite call_and_check_run, Hcall.
  - intros msg s' Hrun. rewrite call_object_method_factors in Hrun.
    destruct (methods_by_name self !! name) as [method|] eqn:Hm.
    + right. unfold bind in Hrun.
      destruct (assemble_call self method name args kwargs s)
        as [[[[f a] kw]|e] s1] eqn:Hasm.
      * exists method, f, a, kw, s1. split; [done|]. split; [done|].
        rewrite call_and_check_run in Hrun. cbn zeta in Hrun.
        destruct (call_sem f a kw (heap s1)) as [[v|e] h2]; cbn in *.
        -- right.
           destruct (check_type dumps_table h2 v) eqn:Hc; [done|].
           injection Hrun as <- _. eauto.
        -- left. by injection Hrun as <- _.
      * injection Hrun as -> _.
        by destruct (assemble_call_raises _ _ _ _ _ _ _ _ Hasm).
    + left. by injection Hrun as <- _.
Qed.

(** C9. For the dispatcher, no [args] and an empty sequence are the same
    command, and so are no [kwargs] and an empty dictionary [d]: the
    two runs end alike, result and state, for every name (whitelisted
    or not). *)
Theorem absent_is_empty self name args kwargs d s :
  heap s !! d = Some (HDict ∅) →
  dispatch self name None kwargs s
    = dispatch self name (Some []) kwargs s ∧
  dispatch self name args None s
    = dispatch self name args (Some d) s.
Proof.
  intros Hd. split; [done|].
  rewrite !call_object_method_factors.
  destruct (methods_by_name self !! name) as [method|]; [|done].
  apply bind_cong_l. by apply assemble_call_kwargs_empty.
Qed.

(** C10. A whitelisted name that the exposed object has no attribute
    for: the lookup of the method raises [AttributeError], which leaves
    the dispatcher as it is, not as a [MethodCallError]; the log ends
    with that lookup, nothing is called. *)
Theorem whitelisted_but_missing
    self name method args kwargs s factory object :
  methods_by_name self !! name = Some method →
  lookup_attr (heap s) (self_obj self) "factory" = Some factory →
  lookup_attr (heap s) factory "object" = Some object →
  lookup_attr (heap s) object name = None →
  dispatch self name args kwargs s =
    (Raise (AttributeError object name),
     State (heap s)
           (trace s ++ [EvGetattr (self_obj self) "factory";
                        EvGetattr factory "object";
                        EvGetattr object name])).
Proof.
  intros Hm Hf Ho Hn. unfold call_object_method. rewrite Hm.
  unfold bind at 1. rewrite py_getattr_run, Hf.
  unfold bind at 1. rewrite py_getattr_run. cbn [heap trace]. rewrite Ho.
  unfold bind at 1. rewrite py_getattr_run. cbn [heap trace]. rewrite Hn.
  by rewrite <- !app_assoc.
Qed.

End DispatcherFacts.

(** ** [get_nested_attr] *)

Lemma for_acc_getattr_chain names : ∀ obj s,
  for_acc names (λ attr name, py_getattr attr name) obj s
    = getattr_chain obj names s.
Proof.
  induction names as [|n ns IH]; intros obj s; [done|].
  cbn [for_acc getattr_chain]. unfold bind.
  destruct (py_getattr obj n s) as [[v|e] s']; [apply IH|done].
Qed.

(** [split] always gives a piece, be it empty. *)
Lemma split_dot_nonempty path : split_dot path ≠ [].
Proof.
  destruct path as [|c path]; [done|]. cbn [split_dot].
  case_bool_decide; [done|]. by destruct (split_dot path).
Qed.

(** Splitting on the dot loses nothing: joining the pieces with dots gives
    the path back. *)
Lemma join_split_dot path : join_dot (split_dot path) = path.
Proof.
  induction path as [|c path IH]; [done|].
  pose proof (split_dot_nonempty path) as Hne.
  cbn [split_dot]. case_bool_decide as Hc.
  - subst c. destruct (split_dot path) as [|w ws] eqn:Hs; [done|].
    cbn [join_dot] in *. by rewrite IH.
  - destruct (split_dot path) as [|w ws] eqn:Hs; [done|].
    destruct ws as [|w' ws]; cbn [join_dot] in *; by rewrite <- IH.
Qed.

(** C6. [get_nested_attr(obj, "")] returns [obj] itself, reading no
    attribute; for a path that is not empty, [get_nested_attr(obj, path)]
    is the chain of [getattr] over the pieces of the path between its
    dots, each taken from what the previous one gave, and it ends as
    that chain does, in result and in state. *)
Theorem get_nested_attr_paths :
  (∀ obj s, get_nested_attr obj "" s = (Ok obj, s)) ∧
  (∀ obj c path s,
     get_nested_attr obj (String c path) s
       = getattr_chain obj (split_dot (String c path)) s).
Proof.
  split; [done|]. intros obj c path s. unfold get_nested_attr.
  rewrite bool_decide_eq_true_2 by done. apply for_acc_getattr_chain.
Qed.

(** ** The sender of [RemoteObject] *)

(** One run of [send_method_call], for a dictionary [kwargs] with the
    entries [dm]: the copy goes to a new reference, the command is
    logged, and the Deferred handed back is the one of the connection
    with the callback on it. *)
Lemma create_method_call_sender_run self name args kwargs dm s :
  heap s !! kwargs = Some (HDict dm) →
  let r := fresh (dom (heap s)) in
  create_method_call_sender self name args kwargs s =
    (Ok (addCallback (λ x, x)
           (λ response, response_getitem response "result")),
     State (<[r := HDict dm]> (heap s))
           (trace s ++ [EvCallRemote (protocol self) "MethodCall" name
                          (VTuple args) (VRef r)])).
Proof.
  intros Hd r. unfold create_method_call_sender, bind, dict_copy.
  by rewrite Hd.
Qed.

(** C5. The function that [__getattr__] gives for a name (Python asks
    [__getattr__] for the names its ordinary lookup does not find, so for
    none of [_protocol], [protocol] and the like), called with the
    positional arguments [args] and the keyword arguments [dm]: it
    returns; one [callRemote] of the command [MethodCall] on the protocol
    of the proxy is added to the log and nothing else, with the name
    asked for, [args] as they are and a dictionary with the entries
    [dm]; and the Deferred it returns ends with [response["result"]]
    when the connection hands it the response, and with the failure of
    the connection otherwise. *)
Theorem remote_method_call self name args kwargs dm s :
  heap s !! kwargs = Some (HDict dm) →
  ∃ called r s',
    RemoteObject_getattr self name args kwargs s = (Ok called, s') ∧
    trace s' = (trace s ++ [EvCallRemote (protocol self) "MethodCall" name
                             (VTuple args) (VRef r)])%list ∧
    heap s' !! r = Some (HDict dm) ∧
    (∀ resp v, resp !! "result" = Some v → called (Ok resp) = Ok v) ∧
    (∀ e, called (Raise e) = Raise e).
Proof.
  intros Hd. unfold RemoteObject_getattr.
  rewrite (create_method_call_sender_run _ _ _ _ _ _ Hd). cbn zeta.
  eexists _, (fresh (dom (heap s))), _. split; [done|]. cbn [heap trace].
  split; [done|]. split; [by rewrite lookup_insert_eq|].
  split; [|done]. intros resp v Hv.
  unfold addCallback, response_getitem. by rewrite Hv.
Qed.

(** C8. The collections of the caller are neither changed nor shared.
    The dispatcher: up to the call of the method no cell the store had
    when the command arrived is changed (what is assembled lives in new
    cells, extras included), so the dictionary [d] received as [kwargs]
    has its entries [dm] after the dispatch, however it ends, as long as
    the body of the method leaves [d] alone. The sender: the dictionary
    it sends is a new cell [r], the one it was called with keeps its
    entries, and whatever is later stored at [d], the cell sent still has
    the entries [dm]. (Positional arguments are values of a tuple, which
    nothing can change.) *)
Theorem argument_collections_not_shared :
  (∀ self method name args kwargs s r,
     r ∈ dom (heap s) →
     heap (assemble_call self method name args kwargs s).2 !! r
       = heap s !! r) ∧
  (∀ dumps_table call_sem self name args d dm s,
     heap s !! d = Some (HDict dm) →
     (∀ f a kw h, (call_sem f a kw h).2 !! d = h !! d) →
     heap (call_object_method dumps_table call_sem
             self name args (Some d) s).2 !! d = Some (HDict dm)) ∧
  (∀ self name args d dm s,
     heap s !! d = Some (HDict dm) →
     ∃ called r s',
       RemoteObject_getattr self name args d s = (Ok called, s') ∧
       trace s' = (trace s ++ [EvCallRemote (protocol self) "MethodCall"
                                name (VTuple args) (VRef r)])%list ∧
       r ∉ dom (heap s) ∧ r ≠ d ∧
       heap s' !! d = Some (HDict dm) ∧
       ∀ c, <[d := c]> (heap s') !! r = Some (HDict dm)).
Proof.
  assert (Hframe : ∀ self method name args kwargs s r,
            r ∈ dom (heap s) →
            heap (assemble_call self method name args kwargs s).2 !! r
              = heap s !! r).
  { intros self method name args kwargs s.
    by destruct (assemble_call_spec self method name args kwargs s)
      as (Hfr & _). }
  split; [exact Hframe|]. split.
  - intros dumps_table call_sem self name args d dm s Hd Hbody.
    rewrite call_object_method_factors.
    destruct (methods_by_name self !! name) as [method|]; [|done].
    pose proof (Hframe self method name args (Some d) s d
                  (elem_of_dom_2 _ _ _ Hd)) as Hfr.
    unfold bind.
    destruct (assemble_call self method name args (Some d) s)
      as [[[[f a] kw]|e] s1]; cbn [snd] in Hfr.
    + rewrite call_and_check_run. cbn zeta.
      assert (Hend : (call_sem f a kw (heap s1)).2 !! d = Some (HDict dm))
        by (by rewrite Hbody, Hfr).
      destruct (call_sem f a kw (heap s1)).1; [|done].
      by destruct (check_type _ _ _).
    + cbn [snd]. by rewrite Hfr.
  - intros self name args d dm s Hd. unfold RemoteObject_getattr.
    rewrite (create_method_call_sender_run _ _ _ _ _ _ Hd). cbn zeta.
    pose proof (is_fresh (dom (heap s))) as Hfresh.
    assert (Hne : fresh (dom (heap s)) ≠ d).
    { intros Heq. apply Hfresh. rewrite Heq. by eapply elem_of_dom_2. }
    eexists _, (fresh (dom (heap s))), _. split; [done|]. cbn [heap trace].
    split; [done|]. split; [done|]. split; [done|].
    split; [by rewrite lookup_insert_ne|].
    intros c. rewrite lookup_insert_ne by done. by rewrite lookup_insert_eq.
Qed.

(** ** The scenarios

    The claims above at the protocol, the exposed object and the store of
    [Example]. *)

Lemma methods_sem_heap f a kw h : (Example.methods_sem f a kw h).2 = h.
Proof.
  unfold Example.methods_sem. by repeat case_match.
Qed.

Lemma forbidden_method_witness :
  Example.dispatch "anything" None None Example.s0
    = (Raise (MethodCallError "Forbidden method 'anything'"), Example.s0).
Proof.
  apply (forbidden_method Example.bpickle_dumps_table Example.methods_sem
           Example.proto "anything" None None Example.s0).
  vm_compute; reflexivity.
Defined.

Lemma non_serializable_result_witness :
  (Example.dispatch "bad" None None Example.s0).1
    = Raise (MethodCallError "Non-serializable result").
Proof.
  refine (f_equal fst (proj1
    (non_serializable_result Example.bpickle_dumps_table Example.methods_sem
       Example.proto "bad" (Example.plain "bad") None None Example.s0
       (VFunc "bad") [] ∅
       (assemble_call Example.proto (Example.plain "bad") "bad"
          None None Example.s0).2
       (VRef 3%positive)
       (heap (assemble_call Example.proto (Example.plain "bad") "bad"
                None None Example.s0).2)
       _ _ _ _)));
    vm_compute; reflexivity.
Defined.

Lemma extras_injected_witness :
  heap Example.s0 !! 5%positive = Some (HDict {[ "caller_id" := VInt 7 ]}) ∧
  ∃ v, ({[ "caller_id" := VRef 1%positive ]} : gmap string value)
         !! "caller_id" = Some v ∧
       (get_nested_attr (self_obj Example.proto) ""
          (assemble_call Example.proto Example.whoami "whoami"
             None (Some 5%positive) Example.s0).2).1 = Ok v ∧
       (get_nested_attr (self_obj Example.proto) "" Example.s0).1 = Ok v.
Proof.
  split; [vm_compute; reflexivity|].
  refine (proj2
    (extras_injected Example.bpickle_dumps_table Example.methods_sem
       Example.proto "whoami" Example.whoami None (Some 5%positive)
       Example.s0 (VFunc "whoami") [] {[ "caller_id" := VRef 1%positive ]}
       (assemble_call Example.proto Example.whoami "whoami"
          None (Some 5%positive) Example.s0).2
       "caller_id" "" _ _ _));
    vm_compute; reflexivity.
Defined.

Lemma success_response_witness :
  (Example.dispatch "add" (Some [VInt 2; VInt 3]) None Example.s0).1
    = Ok {[ "result" := VInt 5 ]}.
Proof.
  refine (f_equal fst
    (success_response Example.bpickle_dumps_table Example.methods_sem
       Example.proto "add" (Example.plain "add")
       (Some [VInt 2; VInt 3]) None Example.s0
       (VFunc "add") [VInt 2; VInt 3] ∅
       (assemble_call Example.proto (Example.plain "add") "add"
          (Some [VInt 2; VInt 3]) None Example.s0).2
       (VInt 5)
       (heap (assemble_call Example.proto (Example.plain "add") "add"
                (Some [VInt 2; VInt 3]) None Example.s0).2)
       _ _ _ _));
    vm_compute; reflexivity.
Defined.

Lemma remote_method_call_witness :
  ∃ called r s',
    RemoteObject_getattr (RemoteObject_init (VRef 1%positive)) "add"
      [VInt 2; VInt 3] 5%positive Example.s0 = (Ok called, s') ∧
    trace s' = (trace Example.s0 ++
                [EvCallRemote (protocol (RemoteObject_init (VRef 1%positive)))
                   "MethodCall" "add" (VTuple [VInt 2; VInt 3]) (VRef r)])%list ∧
    heap s' !! r = Some (HDict {[ "caller_id" := VInt 7 ]}) ∧
    (∀ resp v, resp !! "result" = Some v → called (Ok resp) = Ok v) ∧
    (∀ e, called (Raise e) = Raise e).
Proof.
  apply (remote_method_call (RemoteObject_init (VRef 1%positive)) "add"
           [VInt 2; VInt 3] 5%positive {[ "caller_id" := VInt 7 ]}
           Example.s0).
  vm_compute; reflexivity.
Defined.

Lemma method_exception_propagates_witness :
  (Example.dispatch "boom" None None Example.s0).1
    = Raise (OtherError "ValueError" "boom").
Proof.
  refine (f_equal fst (proj1
    (method_exception_propagates Example.bpickle_dumps_table
       Example.methods_sem Example.proto "boom" None None Example.s0)
    (Example.plain "boom") (VFunc "boom") [] ∅
    (assemble_call Example.proto (Example.plain "boom") "boom"
       None None Example.s0).2
    (OtherError "ValueError" "boom")
    (heap (assemble_call Example.proto (Example.plain "boom") "boom"
             None None Example.s0).2)
    _ _ _));
    vm_compute; reflexivity.
Defined.

Lemma argument_collections_not_shared_witness :
  heap (Example.dispatch "whoami" None (Some 5%positive) Example.s0).2
    !! 5%positive = Some (HDict {[ "caller_id" := VInt 7 ]}) ∧
  ∃ called r s',
    RemoteObject_getattr (RemoteObject_init (VRef 1%positive)) "whoami"
      [] 5%positive Example.s0 = (Ok called, s') ∧
    trace s' = (trace Example.s0 ++
                [EvCallRemote (protocol (RemoteObject_init (VRef 1%positive)))
                   "MethodCall" "whoami" (VTuple []) (VRef r)])%list ∧
    r ∉ dom (heap Example.s0) ∧ r ≠ 5%positive ∧
    heap s' !! 5%positive = Some (HDict {[ "caller_id" := VInt 7 ]}) ∧
    ∀ c, <[5%positive := c]> (heap s') !! r
           = Some (HDict {[ "caller_id" := VInt 7 ]}).
Proof.
  split.
  - apply (proj1 (proj2 argument_collections_not_shared)
             Example.bpickle_dumps_table Example.methods_sem Example.proto
             "whoami" None 5%positive {[ "caller_id" := VInt 7 ]}
             Example.s0).
    + vm_compute; reflexivity.
    + intros f a kw h. rewrite methods_sem_heap. reflexivity.
  - apply (proj2 (proj2 argument_collections_not_shared)
             (RemoteObject_init (VRef 1%positive)) "whoami" []
             5%positive {[ "caller_id" := VInt 7 ]} Example.s0).
    vm_compute; reflexivity.
Defined.

Lemma absent_is_empty_witness :
  Example.dispatch "add" None None Example.s0
    = Example.dispatch "add" (Some []) None Example.s0 ∧
  Example.dispatch "add" (Some [VInt 2; VInt 3]) None Example.s0
    = Example.dispatch "add" (Some [VInt 2; VInt 3]) (Some 4%positive)
        Example.s0.
Proof.
  apply (absent_is_empty Example.bpickle_dumps_table Example.methods_sem
           Example.proto "add" (Some [VInt 2; VInt 3]) None 4%positive
           Example.s0).
  vm_compute; reflexivity.
Defined.

Lemma whitelisted_but_missing_witness :
  Example.dispatch "missing" None None Example.s0
    = (Raise (AttributeError (VRef 3%positive) "missing"),
       State (heap Example.s0)
             (trace Example.s0 ++
              [EvGetattr (self_obj Example.proto) "factory";
               EvGetattr (VRef 2%positive) "object";
               EvGetattr (VRef 3%positive) "missing"])).
Proof.
  apply (whitelisted_but_missing Example.bpickle_dumps_table
           Example.methods_sem Example.proto "missing"
           (Example.plain "missing") None None Example.s0
           (VRef 2%positive) (VRef 3%positive));
    vm_compute; reflexivity.
Defined.

(** * More of the module *)

(** ** The table of exposed methods *)

Local Abbreviation add_method :=
  (λ (tbl : gmap string Method.t) method, <[Method.name method := method]> tbl).

Lemma foldl_methods_absent l : ∀ tbl n,
  n ∉ Method.name <$> l →
  foldl add_method tbl l !! n = tbl !! n.
Proof.
  induction l as [|m l IH]; intros tbl n Hn; [done|].
  rewrite fmap_cons in Hn. apply not_elem_of_cons in Hn as [Hne Hn].
  cbn [foldl]. rewrite IH by done. by rewrite lookup_insert_ne.
Qed.

Lemma foldl_methods_is_Some l : ∀ tbl n,
  is_Some (foldl add_method tbl l !! n)
    ↔ is_Some (tbl !! n) ∨ n ∈ Method.name <$> l.
Proof.
  induction l as [|m l IH]; intros tbl n; cbn [foldl].
  - rewrite fmap_nil, elem_of_nil. tauto.
  - rewrite IH, fmap_cons, elem_of_cons, lookup_insert_is_Some'.
    clear IH. intuition congruence.
Qed.

Lemma foldl_methods_keyed (Q : Method.t → Prop) l : ∀ tbl,
  (∀ n m, tbl !! n = Some m → Method.name m = n ∧ Q m) →
  (∀ m, m ∈ l → Q m) →
  ∀ n m, foldl add_method tbl l !! n = Some m → Method.name m = n ∧ Q m.
Proof.
  induction l as [|m0 l IH]; intros tbl Htbl Hl; cbn [foldl]; [done|].
  apply IH.
  - intros n m. destruct (decide (Method.name m0 = n)) as [<-|Hne].
    + rewrite lookup_insert_eq. intros [= <-]. split; [done|].
      apply Hl, elem_of_cons. by left.
    + rewrite lookup_insert_ne by done. apply Htbl.
  - intros m Hm. apply Hl, elem_of_cons. by right.
Qed.

(** X1. [__init__] goes through [methods] in order and stores each method
    under its name, so of two methods declared under one name the table
    keeps the later one: a method that no later method of the list shares
    its name with is what the table answers to that name. *)
Theorem methods_by_name_last_wins self l1 m l2 :
  Method.name m ∉ Method.name <$> l2 →
  methods_by_name (MethodCallProtocol_init self (l1 ++ m :: l2))
    !! Method.name m = Some m.
Proof.
  intros Hl2. cbn [MethodCallProtocol_init methods_by_name].
  unfold build_methods_by_name. rewrite foldl_app. cbn [foldl].
  rewrite foldl_methods_absent by done. by rewrite lookup_insert_eq.
Qed.

Lemma methods_by_name_last_wins_witness :
  methods_by_name
    (MethodCallProtocol_init (VRef 1%positive)
       ([Example.plain "whoami"] ++ Example.whoami :: [Example.plain "add"]))
    !! Method.name Example.whoami = Some Example.whoami.
Proof.
  apply (methods_by_name_last_wins (VRef 1%positive)
           [Example.plain "whoami"] Example.whoami [Example.plain "add"]).
  vm_compute. intros H. inversion H as [|? ? ? H']. inversion H'.
Defined.

(** X2. The keys of the table [__init__] builds are the names of the
    methods of [methods], no more and no fewer, and what is stored under a
    key is a method of the list that has that name. *)
Theorem methods_by_name_keys self methods n :
  (is_Some (methods_by_name (MethodCallProtocol_init self methods) !! n)
     ↔ n ∈ Method.name <$> methods) ∧
  (∀ m, methods_by_name (MethodCallProtocol_init self methods) !! n = Some m →
        Method.name m = n ∧ m ∈ methods).
Proof.
  cbn [MethodCallProtocol_init methods_by_name].
  unfold build_methods_by_name. split.
  - rewrite foldl_methods_is_Some, lookup_empty.
    split; [intros [[? [=]]|?]; done | by right].
  - intros m. by apply (foldl_methods_keyed (λ m, m ∈ methods)).
Qed.

(** X3. A protocol whose [methods] declare no method under [name]
    rejects the command: [__init__] leaves the name out of the table and
    the dispatcher raises the forbidden-method error without a look at
    the exposed object, whether or not that object has such a method. *)
Theorem undeclared_method_forbidden
    dumps_table call_sem self methods name args kwargs s :
  name ∉ Method.name <$> methods →
  call_object_method dumps_table call_sem
    (MethodCallProtocol_init self methods) name args kwargs s
  = (Raise (MethodCallError ("Forbidden method '" +:+ name +:+ "'")), s).
Proof.
  intros Hname. rewrite call_object_method_factors.
  cbn [MethodCallProtocol_init methods_by_name].
  unfold build_methods_by_name.
  by rewrite foldl_methods_absent, lookup_empty.
Qed.

Lemma undeclared_method_forbidden_witness :
  call_object_method Example.bpickle_dumps_table Example.methods_sem
    (MethodCallProtocol_init (VRef 1%positive) [Example.plain "add"])
    "boom" None None Example.s0
  = (Raise (MethodCallError "Forbidden method 'boom'"), Example.s0).
Proof.
  apply (undeclared_method_forbidden Example.bpickle_dumps_table
           Example.methods_sem (VRef 1%positive) [Example.plain "add"]
           "boom" None None Example.s0).
  vm_compute. intros H. inversion H as [|? ? ? H']. inversion H'.
Defined.

(** ** More on [get_nested_attr] *)

Lemma get_nested_attr_chain obj path s :
  path ≠ "" →
  get_nested_attr obj path s = getattr_chain obj (split_dot path) s.
Proof.
  intros Hne. unfold get_nested_attr.
  rewrite bool_decide_eq_true_2 by done. apply for_acc_getattr_chain.
Qed.

Lemma split_dot_app p q :
  split_dot (p +:+ "." +:+ q) = (split_dot p ++ split_dot q)%list.
Proof.
  induction p as [|c p IH].
  - done.
  - pose proof (split_dot_nonempty p) as Hne.
    change (String c p +:+ "." +:+ q) with (String c (p +:+ "." +:+ q)).
    cbn [split_dot]. rewrite IH. case_bool_decide; [done|].
    by destruct (split_dot p).
Qed.

Lemma getattr_chain_app l1 : ∀ l2 obj s,
  getattr_chain obj (l1 ++ l2) s
    = bind (getattr_chain obj l1) (λ o, getattr_chain o l2) s.
Proof.
  induction l1 as [|n l1 IH]; intros l2 obj s; [done|].
  cbn [app getattr_chain]. rewrite bind_assoc.
  apply bind_ext. intros o s' _. apply IH.
Qed.

(** X4. Paths compose: for two paths that are not empty,
    [get_nested_attr(obj, p + "." + q)] runs as [get_nested_attr] of [q]
    on what [get_nested_attr(obj, p)] gives, with the same result, the
    same reads and the same failure when [p] fails. *)
Theorem get_nested_attr_compose obj p q s :
  p ≠ "" → q ≠ "" →
  get_nested_attr obj (p +:+ "." +:+ q) s
    = bind (get_nested_attr obj p) (λ o, get_nested_attr o q) s.
Proof.
  intros Hp Hq.
  rewrite get_nested_attr_chain by (by destruct p).
  rewrite split_dot_app, getattr_chain_app.
  transitivity (bind (get_nested_attr obj p)
                  (λ o, getattr_chain o (split_dot q)) s).
  - apply bind_cong_l. symmetry. by apply get_nested_attr_chain.
  - apply bind_ext. intros o s' _. symmetry. by apply get_nested_attr_chain.
Qed.

Lemma get_nested_attr_compose_witness :
  get_nested_attr (VRef 1%positive) "factory.object" Example.s0
    = bind (get_nested_attr (VRef 1%positive) "factory")
           (λ o, get_nested_attr o "object") Example.s0.
Proof.
  apply (get_nested_attr_compose (VRef 1%positive) "factory" "object"
           Example.s0); vm_compute; intros H; inversion H.
Defined.

Lemma walk_reads h names : ∀ obj,
  Forall (λ e, is_getattr e = true) (walk h obj names).2 ∧
  (List.length (walk h obj names).2 ≤ List.length names)%nat ∧
  (∀ v, (walk h obj names).1 = Ok v →
        List.length (walk h obj names).2 = List.length names).
Proof.
  induction names as [|n ns IH]; intros obj; cbn [walk].
  - by repeat split.
  - destruct (lookup_attr h obj n) as [v|]; cbn [fst snd List.length].
    + destruct (IH v) as (Hall & Hle & Hok). split; [by constructor|].
      split; [lia|]. intros w Hw. by rewrite (Hok w Hw).
    + split; [by repeat constructor|]. split; [lia|]. by intros v.
Qed.

(** X5. [get_nested_attr] only reads: it leaves the store as it is, and
    what it adds to the log are attribute reads, at most one for each
    piece of the path, and one for each piece when the path is not empty
    and it returns. *)
Theorem get_nested_attr_reads_only obj path s :
  heap (get_nested_attr obj path s).2 = heap s ∧
  ∃ reads,
    trace (get_nested_attr obj path s).2 = (trace s ++ reads)%list ∧
    Forall (λ e, is_getattr e = true) reads ∧
    (List.length reads ≤ List.length (split_dot path))%nat ∧
    (∀ v, (get_nested_attr obj path s).1 = Ok v → path ≠ "" →
          List.length reads = List.length (split_dot path)).
Proof.
  rewrite get_nested_attr_run. cbn [fst snd heap trace]. split; [done|].
  exists (resolve (heap s) obj path).2. split; [done|].
  unfold resolve. case_bool_decide as Hp.
  - destruct (walk_reads (heap s) (split_dot path) obj) as (Hall & Hle & Hok).
    repeat split; [done|done|]. intros v Hv _. by apply (Hok v).
  - cbn [fst snd List.length]. repeat split; [done|lia|]. by intros v _ ?.
Qed.




(** X7. A path that starts with a dot, the path ["."] included, does not
    give the object back: its first piece is the empty name, which
    [get_nested_attr] reads from the object as any other, so on an object
    with no attribute of that name it raises [AttributeError] at once. *)
Theorem get_nested_attr_leading_dot obj rest s :
  lookup_attr (heap s) obj "" = None →
  get_nested_attr obj (String "." rest) s
    = (Raise (AttributeError obj ""),
       State (heap s) (trace s ++ [EvGetattr obj ""])).
Proof.
  intros Hnone. rewrite get_nested_attr_run. unfold resolve.
  rewrite bool_decide_eq_true_2 by done. cbn [split_dot].
  rewrite bool_decide_eq_true_2 by done. cbn [walk]. by rewrite Hnone.
Qed.

Lemma get_nested_attr_leading_dot_witness :
  get_nested_attr (VRef 1%positive) "." Example.s0
    = (Raise (AttributeError (VRef 1%positive) ""),
       State (heap Example.s0)
             (trace Example.s0 ++ [EvGetattr (VRef 1%positive) ""])).
Proof.
  apply (get_nested_attr_leading_dot (VRef 1%positive) "" Example.s0).
  vm_compute; reflexivity.
Defined.

Lemma split_dot_no_dot path :
  Forall (λ w, has_dot w = false) (split_dot path).
Proof.
  induction path as [|c path IH]; [by repeat constructor|].
  cbn [split_dot]. case_bool_decide as Hc.
  - by constructor.
  - destruct (split_dot path) as [|w ws]; [by repeat constructor; cbn;
      rewrite bool_decide_eq_false_2|].
    inversion IH as [|? ? Hw Hws]; subst. constructor; [|done].
    cbn [has_dot]. by rewrite bool_decide_eq_false_2, Hw.
Qed.

(** X8. The pieces [get_nested_attr] walks through are those of the path
    between its dots: none of them has a dot, and put together again with
    dots they give the path back, so no name of the path is lost, merged
    or reordered. *)
Theorem split_dot_pieces path :
  Forall (λ w, has_dot w = false) (split_dot path) ∧
  join_dot (split_dot path) = path.
Proof.
  split; [apply split_dot_no_dot | apply join_split_dot].
Qed.

(** ** What the dispatcher logs *)

Lemma logs_only_silent {A} P (m : M A) : silent m → logs_only P m.
Proof.
  intros Hs s r s' Hrun. exists []. specialize (Hs s).
  rewrite Hrun in Hs. cbn [snd] in Hs. by rewrite app_nil_r.
Qed.

Lemma logs_only_bind {A B} P (m : M A) (k : A → M B) :
  logs_only P m → (∀ a, logs_only P (k a)) → logs_only P (bind m k).
Proof.
  intros Hm Hk s r s'. unfold bind.
  destruct (m s) as [[a|e] s1] eqn:E.
  - intros Hrun. destruct (Hm _ _ _ E) as (ev1 & H1 & HP1).
    destruct (Hk _ _ _ _ Hrun) as (ev2 & H2 & HP2).
    exists (ev1 ++ ev2)%list. split; [|by apply Forall_app].
    by rewrite H2, H1, app_assoc.
  - intros [= <- <-]. by apply (Hm _ _ _ E).
Qed.

Lemma logs_only_ret {A} P (a : A) : logs_only P (ret a).
Proof. by apply logs_only_silent. Qed.

Lemma logs_only_for_each {A} P (l : list A) (body : A → M unit) :
  (∀ x, logs_only P (body x)) → logs_only P (for_each l body).
Proof.
  intros Hb. induction l as [|x l IH]; cbn [for_each].
  - apply logs_only_ret.
  - apply logs_only_bind; [apply Hb | by intros _].
Qed.

Lemma py_getattr_logs o n :
  logs_only (λ e, is_getattr e = true) (py_getattr o n).
Proof.
  intros s r s'. rewrite py_getattr_run. intros [= _ <-].
  exists [EvGetattr o n]. split; [done | by repeat constructor].
Qed.

Lemma get_nested_attr_logs obj path :
  logs_only (λ e, is_getattr e = true) (get_nested_attr obj path).
Proof.
  intros s r s'. rewrite get_nested_attr_run. intros [= _ <-].
  exists (resolve (heap s) obj path).2. split; [done|].
  unfold resolve. case_bool_decide; [apply walk_reads | constructor].
Qed.

Lemma alloc_silent c : silent (alloc c).
Proof. done. Qed.

Lemma list_extend_silent r xs : silent (list_extend r xs).
Proof. intros s. unfold list_extend. by destruct (heap s !! r) as [[]|]. Qed.

Lemma truthy_ref_silent r : silent (truthy_ref r).
Proof. intros s. unfold truthy_ref. by destruct (heap s !! r) as [[]|]. Qed.

Lemma dict_update_silent r d : silent (dict_update r d).
Proof.
  intros s. unfold dict_update.
  destruct (heap s !! r) as [[]|]; try done.
  by destruct (heap s !! d) as [[]|].
Qed.

Lemma dict_setitem_silent r k v : silent (dict_setitem r k v).
Proof. intros s. unfold dict_setitem. by destruct (heap s !! r) as [[]|]. Qed.

Lemma list_read_silent r : silent (list_read r).
Proof. intros s. unfold list_read. by destruct (heap s !! r) as [[]|]. Qed.

Lemma dict_read_silent r : silent (dict_read r).
Proof. intros s. unfold dict_read. by destruct (heap s !! r) as [[]|]. Qed.

Create HintDb logs.
#[export] Hint Resolve logs_only_ret py_getattr_logs get_nested_attr_logs
  logs_only_silent alloc_silent list_extend_silent truthy_ref_silent
  dict_update_silent dict_setitem_silent list_read_silent
  dict_read_silent : logs.

(** Before the call, the dispatcher logs attribute reads and nothing
    else. *)
Lemma assemble_call_logs self method name args kwargs :
  logs_only (λ e, is_getattr e = true)
    (assemble_call self method name args kwargs).
Proof.
  unfold assemble_call, new_list, new_dict.
  repeat first [ solve [auto with logs]
               | apply logs_only_bind; [|intros ?] ].
  - destruct args as [[|]|]; auto with logs.
  - destruct kwargs; auto with logs.
    apply logs_only_bind; [auto with logs|].
    intros []; auto with logs.
  - case_bool_decide; auto with logs.
    apply logs_only_for_each. intros kv.
    apply logs_only_bind; auto with logs.
Qed.

(** X9. Whatever the command, the dispatcher reads attributes and then
    calls at most one function, once, as its last step: no call comes
    before a read, nothing is called twice, no command is sent; and when
    it returns a response, the call was made. *)
Theorem dispatch_single_call
    dumps_table call_sem self name args kwargs s :
  ∃ reads calls,
    trace (call_object_method dumps_table call_sem
             self name args kwargs s).2
      = (trace s ++ reads ++ calls)%list ∧
    Forall (λ e, is_getattr e = true) reads ∧
    (calls = [] ∨ ∃ f a kw, calls = [EvCall f a kw]) ∧
    (∀ resp, (call_object_method dumps_table call_sem
                self name args kwargs s).1 = Ok resp →
             ∃ f a kw, calls = [EvCall f a kw]).
Proof.
  rewrite call_object_method_factors.
  destruct (methods_by_name self !! name) as [method|].
  - unfold bind.
    destruct (assemble_call self method name args kwargs s)
      as [[[[f a] kw]|e] s1] eqn:Hasm;
      destruct (assemble_call_logs _ _ _ _ _ _ _ _ Hasm) as (reads & Ht & HP).
    + exists reads, [EvCall f a kw].
      assert (Htr : trace (call_and_check dumps_table call_sem (f, a, kw) s1).2
                    = (trace s1 ++ [EvCall f a kw])%list).
      { rewrite call_and_check_run. cbn zeta.
        destruct (call_sem f a kw (heap s1)).1; [|done].
        by destruct (check_type _ _ _). }
      rewrite Htr, Ht, app_assoc. repeat split; [done|eauto|eauto].
    + exists reads, []. cbn [fst snd]. rewrite app_nil_r.
      repeat split; [done|done|by left|done].
  - exists [], []. cbn [fst snd]. rewrite !app_nil_r.
    repeat split; [constructor|by left|done].
Qed.

(** ** What the method is called with *)

(** X10. A whitelisted command reaches the method as soon as the exposed
    object has it and the paths of its extras lead somewhere. The function
    called is [getattr(self.factory.object, name)]; the positional
    arguments are those of the command, none when there are none; the
    keyword arguments have the keys of the command's and those of the
    extras and no other, with the command's value under every key that
    is not an extra and the resolved path under every key that is; and no
    cell the store had is changed before the call. *)
Theorem dispatch_call_arguments
    dumps_table call_sem self name method args kwargs dm f s :
  methods_by_name self !! name = Some method →
  exposed_method (heap s) (self_obj self) name = Some f →
  kwargs_in (heap s) kwargs dm →
  (∀ k p, Method.kwargs method !! k = Some p →
     ∃ v, (get_nested_attr (self_obj self) p s).1 = Ok v) →
  ∃ kw s1,
    call_object_method dumps_table call_sem self name args kwargs s
      = call_and_check dumps_table call_sem (f, args_of args, kw) s1 ∧
    dom kw = dom dm ∪ dom (Method.kwargs method) ∧
    (∀ k, Method.kwargs method !! k = None → kw !! k = dm !! k) ∧
    (∀ k p, Method.kwargs method !! k = Some p →
       ∃ v, kw !! k = Some v ∧
            (get_nested_attr (self_obj self) p s).1 = Ok v) ∧
    (∀ r, r ∈ dom (heap s) → heap s1 !! r = heap s !! r).
Proof.
  intros Hm Hf Hdm Hres.
  assert (Hres' : ∀ k p, Method.kwargs method !! k = Some p →
            ∃ v, (resolve (heap s) (self_obj self) p).1 = Ok v).
  { intros k p Hk. destruct (Hres k p Hk) as [v Hv].
    rewrite get_nested_attr_run in Hv. eauto. }
  destruct (assemble_call_total self method name args kwargs s f dm
              Hf Hdm Hres') as (kw & s1 & Hasm).
  exists kw, s1.
  pose proof (assemble_call_spec self method name args kwargs s) as Hspec.
  cbn zeta in Hspec. rewrite Hasm in Hspec. cbn [fst snd] in Hspec.
  destruct Hspec as (Hframe & _ & _ & _ & Hextras & Hcaller).
  split; [by apply dispatch_reaching_call with method|].
  split; [|split; [by apply Hcaller|split; [|done]]].
  - apply set_eq. intros k. rewrite elem_of_union, !elem_of_dom.
    destruct (Method.kwargs method !! k) as [p|] eqn:Hk.
    + destruct (Hextras k p Hk) as (v & _ & Hv). rewrite Hv.
      split; [by right | by eauto].
    + rewrite (Hcaller dm Hdm k Hk).
      split; [by left | by intros [?|[? [=]]]].
  - intros k p Hk. destruct (Hextras k p Hk) as (v & Hv & Hkw).
    exists v. by rewrite get_nested_attr_run.
Qed.

Lemma dispatch_call_arguments_witness :
  ∃ kw s1,
    call_object_method Example.bpickle_dumps_table Example.methods_sem
      Example.proto "add" (Some [VInt 2; VInt 3]) (Some 5%positive)
      Example.s0
      = call_and_check Example.bpickle_dumps_table Example.methods_sem
          (VFunc "add", args_of (Some [VInt 2; VInt 3]), kw) s1 ∧
    dom kw = dom ({[ "caller_id" := VInt 7 ]} : gmap string value)
             ∪ dom (Method.kwargs (Example.plain "add")) ∧
    (∀ k, Method.kwargs (Example.plain "add") !! k = None →
          kw !! k = ({[ "caller_id" := VInt 7 ]} : gmap string value) !! k) ∧
    (∀ k p, Method.kwargs (Example.plain "add") !! k = Some p →
       ∃ v, kw !! k = Some v ∧
            (get_nested_attr (self_obj Example.proto) p Example.s0).1
              = Ok v) ∧
    (∀ r, r ∈ dom (heap Example.s0) →
          heap s1 !! r = heap Example.s0 !! r).
Proof.
  apply (dispatch_call_arguments Example.bpickle_dumps_table
           Example.methods_sem Example.proto "add" (Example.plain "add")
           (Some [VInt 2; VInt 3]) (Some 5%positive)
           {[ "caller_id" := VInt 7 ]} (VFunc "add") Example.s0).
  - vm_compute; reflexivity.
  - vm_compute; reflexivity.
  - vm_compute; reflexivity.
  - intros k p Hk. cbn in Hk. by rewrite lookup_empty in Hk.
Defined.

(** X11. A declared extra whose path does not resolve makes the command
    fail before the method is called: the dispatcher raises, what it
    raises is no [MethodCallError], and it has logged attribute reads
    only, no call. *)
Theorem dispatch_extra_unresolved
    dumps_table call_sem self name method args kwargs s k p e0 :
  methods_by_name self !! name = Some method →
  Method.kwargs method !! k = Some p →
  (get_nested_attr (self_obj self) p s).1 = Raise e0 →
  ∃ e reads,
    (call_object_method dumps_table call_sem
       self name args kwargs s).1 = Raise e ∧
    not_method_call_error e ∧
    trace (call_object_method dumps_table call_sem
             self name args kwargs s).2 = (trace s ++ reads)%list ∧
    Forall (λ e, is_getattr e = true) reads.
Proof.
  intros Hm Hk Hfail. rewrite get_nested_attr_run in Hfail. cbn [fst] in Hfail.
  pose proof (assemble_call_spec self method name args kwargs s) as Hspec.
  cbn zeta in Hspec.
  destruct (assemble_call self method name args kwargs s)
    as [[[[f a] kw]|e] s1] eqn:Hasm; cbn [fst snd] in Hspec.
  - destruct Hspec as (_ & _ & _ & _ & Hextras & _).
    destruct (Hextras k p Hk) as (v & Hv & _). congruence.
  - destruct (assemble_call_logs _ _ _ _ _ _ _ _ Hasm) as (reads & Ht & HP).
    rewrite (dispatch_failing_early dumps_table call_sem
               _ _ _ _ _ _ _ _ Hm Hasm).
    exists e, reads. repeat split; [|done|done].
    by apply (assemble_call_raises _ _ _ _ _ _ _ _ Hasm).
Qed.

Lemma dispatch_extra_unresolved_witness :
  ∃ e reads,
    (call_object_method Example.bpickle_dumps_table Example.methods_sem
       (MethodCallProtocol_init (VRef 1%positive)
          [ {| Method.name := "add";
               Method.kwargs := {[ "user" := "factory.nothing" ]} |} ])
       "add" (Some [VInt 2; VInt 3]) None Example.s0).1 = Raise e ∧
    not_method_call_error e ∧
    trace (call_object_method Example.bpickle_dumps_table Example.methods_sem
       (MethodCallProtocol_init (VRef 1%positive)
          [ {| Method.name := "add";
               Method.kwargs := {[ "user" := "factory.nothing" ]} |} ])
       "add" (Some [VInt 2; VInt 3]) None Example.s0).2
      = (trace Example.s0 ++ reads)%list ∧
    Forall (λ e, is_getattr e = true) reads.
Proof.
  apply (dispatch_extra_unresolved Example.bpickle_dumps_table
           Example.methods_sem
           (MethodCallProtocol_init (VRef 1%positive)
              [ {| Method.name := "add";
                   Method.kwargs := {[ "user" := "factory.nothing" ]} |} ])
           "add"
           {| Method.name := "add";
              Method.kwargs := {[ "user" := "factory.nothing" ]} |}
           (Some [VInt 2; VInt 3]) None Example.s0
           "user" "factory.nothing"
           (AttributeError (VRef 2%positive) "nothing"));
    vm_compute; reflexivity.
Defined.

(** ** Responses *)

Lemma call_object_method_ok_inv
    dumps_table call_sem self name args kwargs s resp s' :
  call_object_method dumps_table call_sem self name args kwargs s
    = (Ok resp, s') →
  ∃ v, resp = {[ "result" := v ]} ∧
       check_type dumps_table (heap s') v = true.
Proof.
  rewrite call_object_method_factors.
  destruct (methods_by_name self !! name) as [method|]; [|done].
  unfold bind.
  destruct (assemble_call self method name args kwargs s)
    as [[[[f a] kw]|e] s1]; [|done].
  rewrite call_and_check_run. cbn zeta.
  destruct (call_sem f a kw (heap s1)) as [[v|e] h2]; cbn [fst snd]; [|done].
  cbn [heap]. destruct (check_type dumps_table h2 v) eqn:Hc; [|done].
  intros [= <- <-]. by exists v.
Qed.

(** X12. A response of the dispatcher has the field [result] and no
    other, and the value under it passed [MethodCallArgument.check] in
    the store the dispatcher ended in. *)
Theorem dispatch_response_shape
    dumps_table call_sem self name args kwargs s resp s' :
  call_object_method dumps_table call_sem self name args kwargs s
    = (Ok resp, s') →
  ∃ v, resp = {[ "result" := v ]} ∧
       check_type dumps_table (heap s') v = true.
Proof.
  apply call_object_method_ok_inv.
Qed.

Lemma dispatch_response_shape_witness :
  ∃ v, ({[ "result" := VInt 5 ]} : gmap string value) = {[ "result" := v ]} ∧
       check_type Example.bpickle_dumps_table
         (heap (Example.dispatch "add" (Some [VInt 2; VInt 3]) None
                  Example.s0).2) v = true.
Proof.
  apply (dispatch_response_shape Example.bpickle_dumps_table
           Example.methods_sem Example.proto "add"
           (Some [VInt 2; VInt 3]) None Example.s0
           {[ "result" := VInt 5 ]}
           (Example.dispatch "add" (Some [VInt 2; VInt 3]) None
              Example.s0).2).
  vm_compute; reflexivity.
Defined.

(** X13. The two ends fit: the Deferred a sender of [RemoteObject]
    returns, fired with a response of the dispatcher, whatever the
    command that response answers, gives the value under [result]; the
    lookup [response["result"]] of the callback does not fail on it. *)
Theorem remote_call_round_trip
    dumps_table call_sem ro name args d dm s
    self name' args' kwargs' srv resp srv' :
  heap s !! d = Some (HDict dm) →
  call_object_method dumps_table call_sem self name' args' kwargs' srv
    = (Ok resp, srv') →
  ∃ called s1 v,
    RemoteObject_getattr ro name args d s = (Ok called, s1) ∧
    resp = {[ "result" := v ]} ∧
    called (Ok resp) = Ok v.
Proof.
  intros Hd Hrun.
  destruct (call_object_method_ok_inv _ _ _ _ _ _ _ _ _ Hrun) as (v & -> & _).
  unfold RemoteObject_getattr.
  rewrite (create_method_call_sender_run _ _ _ _ _ _ Hd). cbn zeta.
  eexists _, _, v. split; [done|]. split; [done|].
  unfold addCallback, response_getitem. by rewrite lookup_singleton_eq.
Qed.

Lemma remote_call_round_trip_witness :
  ∃ called s1 v,
    RemoteObject_getattr (RemoteObject_init (VRef 1%positive)) "add"
      [VInt 2; VInt 3] 4%positive Example.s0 = (Ok called, s1) ∧
    ({[ "result" := VInt 5 ]} : gmap string value) = {[ "result" := v ]} ∧
    called (Ok {[ "result" := VInt 5 ]}) = Ok v.
Proof.
  apply (remote_call_round_trip Example.bpickle_dumps_table
           Example.methods_sem (RemoteObject_init (VRef 1%positive))
           "add" [VInt 2; VInt 3] 4%positive ∅ Example.s0
           Example.proto "add" (Some [VInt 2; VInt 3]) None Example.s0
           {[ "result" := VInt 5 ]}
           (Example.dispatch "add" (Some [VInt 2; VInt 3]) None
              Example.s0).2);
    vm_compute; reflexivity.
Defined.

(** X14. Fired with a response that has no field [result], the Deferred
    of a sender fails with the [KeyError] of the lookup in its
    callback. *)
Theorem remote_call_missing_result ro name args d dm s (resp : response) :
  heap s !! d = Some (HDict dm) →
  resp !! "result" = None →
  ∃ called s1,
    RemoteObject_getattr ro name args d s = (Ok called, s1) ∧
    called (Ok resp) = Raise (KeyError "result").
Proof.
  intros Hd Hnone. unfold RemoteObject_getattr.
  rewrite (create_method_call_sender_run _ _ _ _ _ _ Hd). cbn zeta.
  eexists _, _. split; [done|].
  unfold addCallback, response_getitem. by rewrite Hnone.
Qed.

Lemma remote_call_missing_result_witness :
  ∃ called s1,
    RemoteObject_getattr (RemoteObject_init (VRef 1%positive)) "add"
      [VInt 2; VInt 3] 4%positive Example.s0 = (Ok called, s1) ∧
    called (Ok ∅) = Raise (KeyError "result").
Proof.
  apply (remote_call_missing_result (RemoteObject_init (VRef 1%positive))
           "add" [VInt 2; VInt 3] 4%positive ∅ Example.s0 ∅);
    vm_compute; reflexivity.
Defined.
